(** * Shard storage over an embedded key-value store

    A shallow embedding of [src/datastore/bolt_shard.go]: the [BoltShard]
    registry of open database handles ([DropDatabase], [close], [IsClosed],
    [Query], [Write]) and the transactional write path that lays points out
    in the [series], [fields] and [data] buckets.

    Go values are modelled as follows.
    - [string] is a Rocq [string]; [[]byte] is a [list byte];
      [[]byte(s)] is [list_byte_of_string s].
    - [uint64] and [int64] are [Z]; a conversion to [uint64] is written
      [_ mod 2^64], a conversion to [byte] keeps the low eight bits.
    - A Go function returning [error] returns [Result unit]: [Ok tt] for
      [nil], [Err e] for an error value, [Panic] for a run-time panic
      (an index out of range).
    - The receiver [*BoltShard] and the outside world (store files, open
      handles) are passed explicitly; the mutex is not modelled, every
      method runs to completion on its own.
    - The closure handed to [db.Update] is a computation in the monad [Tx],
      which threads the transaction's private view of the store and stops
      at the first error, as the Go closure does with [return err]. *)

From Stdlib Require Import ZArith Lia Strings.Byte String Ascii.
From stdpp Require Import gmap strings list fin_maps.

#[global] Instance byte_eq_dec : EqDecision byte := Byte.byte_eq_dec.

#[global] Program Instance byte_countable : Countable byte :=
  inj_countable Byte.to_N Byte.of_N _.
Next Obligation. intros b. apply Byte.of_to_N. Qed.

(** ** Go results *)

Abbreviation Error := string (only parsing).

Inductive Result (A : Type) : Type :=
| Ok (a : A)
| Err (e : Error)
| Panic (msg : string).
Arguments Ok {A} a.
Arguments Err {A} e.
Arguments Panic {A} msg.

(** ** Bytes, [bytes.Buffer] and [encoding/binary] *)

Definition Z_of_byte (b : byte) : Z := Z.of_N (Byte.to_N b).

(** [byte(v)]: the low eight bits of [v]. *)
Definition byte_of_Z (v : Z) : byte :=
  default x00 (Byte.of_N (Z.to_N (v mod 256))).

(** [bytes.Compare], the order in which the store keeps its keys. *)
Fixpoint bytes_compare (a b : list byte) : comparison :=
  match a, b with
  | [], [] => Eq
  | [], _ :: _ => Lt
  | _ :: _, [] => Gt
  | x :: a', y :: b' =>
      match (Z_of_byte x ?= Z_of_byte y)%Z with
      | Eq => bytes_compare a' b'
      | c => c
      end
  end.

Definition bytes_lt (a b : list byte) : Prop := bytes_compare a b = Lt.

(** The unsigned number a byte string denotes when read big-endian. *)
Definition be_value (bs : list byte) : Z :=
  foldl (fun acc b => (acc * 256 + Z_of_byte b)%Z) 0%Z bs.

Module Buffer.
(** [bytes.Buffer]: the unread part of the buffer. *)
Definition NewBuffer : list byte := [].
Definition Reset (buf : list byte) : list byte := [].
Definition WriteString (buf : list byte) (s : string) : list byte :=
  buf ++ list_byte_of_string s.
Definition WriteByte (buf : list byte) (c : byte) : list byte := buf ++ [c].
Definition Bytes (buf : list byte) : list byte := buf.
End Buffer.

Module binary.
(** [binary.BigEndian.PutUint64]: [b[0] = byte(v >> 56)], ...,
    [b[7] = byte(v)]. *)
Definition PutUint64 (v : Z) : list byte :=
  [ byte_of_Z (Z.shiftr v 56); byte_of_Z (Z.shiftr v 48);
    byte_of_Z (Z.shiftr v 40); byte_of_Z (Z.shiftr v 32);
    byte_of_Z (Z.shiftr v 24); byte_of_Z (Z.shiftr v 16);
    byte_of_Z (Z.shiftr v 8); byte_of_Z v ].

(** [binary.Write(buf, binary.BigEndian, v)] for a [uint64] (or a pointer
    to one): eight bytes appended to the buffer. *)
Definition Write (buf : list byte) (v : Z) : list byte :=
  buf ++ PutUint64 (v mod 2 ^ 64).
End binary.

(** ** The embedded store

    A store file holds named buckets; a bucket maps keys to values. *)

Abbreviation Bucket := (gmap (list byte) (list byte)) (only parsing).
Abbreviation Store := (gmap (list byte) (gmap (list byte) (list byte))) (only parsing).

(** [*bolt.DB]: a handle on the store file at a path. *)
Abbreviation DB := string (only parsing).

(** The world outside the shard: the store files by path, and the paths on
    which a handle is currently open. *)
Record World := mkWorld {
  files : gmap string Store;
  open_dbs : gset string
}.

Definition set_files (f : gmap string Store → gmap string Store) (w : World) : World :=
  {| files := f (files w); open_dbs := open_dbs w |}.

Definition set_open (f : gset string → gset string) (w : World) : World :=
  {| files := files w; open_dbs := f (open_dbs w) |}.

(** What a reader finds in bucket [b] of a store, and in the store at a
    path; a missing bucket or file has no entries. *)
Definition contents (st : Store) (b : list byte) : Bucket := default ∅ (st !! b).
Definition store_at (w : World) (path : string) : Store := default ∅ (files w !! path).

(** ** The transaction monad *)

Definition Tx (A : Type) : Type := Store → Store * Result A.

#[global] Instance Tx_ret : MRet Tx := fun A a st => (st, Ok a).

#[global] Instance Tx_bind : MBind Tx := fun A B f m st =>
  match m st with
  | (st', Ok a) => f a st'
  | (st', Err e) => (st', Err e)
  | (st', Panic msg) => (st', Panic msg)
  end.

(** A step that does not touch the transaction. *)
Definition lift {A} (r : Result A) : Tx A := fun st => (st, r).

(** [l[i]]: a run-time panic when [i] is out of range. *)
Definition index {A} (l : list A) (i : nat) : Tx A :=
  lift (match l !! i with
        | Some x => Ok x
        | None => Panic "index out of range"
        end).

(** [for i, x := range l { body }], where the body may [return err]. *)
Fixpoint range_from {A} (i : nat) (l : list A) (body : nat → A → Tx unit) : Tx unit :=
  match l with
  | [] => mret tt
  | x :: l' => body i x ;; range_from (S i) l' body
  end.

Definition range {A} (l : list A) (body : nat → A → Tx unit) : Tx unit :=
  range_from 0 l body.

(** ** Collaborators

    Everything the shard calls that lives outside [bolt_shard.go]. The
    failures of the store, of the file system and of the value serializer
    are decided by the collaborator, so they are functions of what the
    collaborator sees. *)

(** Modelled from the spec: [parser.QuerySpec], known to the dispatcher by
    its database name and three classifiers. *)
Record QuerySpec := mkQuerySpec {
  Database : string;
  IsListSeriesQuery : bool;
  IsDropSeriesQuery : bool;
  IsDeleteFromSeriesQuery : bool
}.

Class Collaborators := {
  (** Modelled from the spec: [protocol.FieldValue], a typed value that
      carries an explicit is-null flag. *)
  FieldValue : Type;
  GetIsNull : FieldValue → bool;
  (** [proto.Buffer.Marshal] into a buffer that was just reset. *)
  Marshal : FieldValue → Result (list byte);
  (** Modelled from the spec: [itou], the conversion of an [int64]
      timestamp to the [uint64] that is written into the key. *)
  itou : Z → Z;
  (** [tx.CreateBucketIfNotExists] fails with this error, if any. *)
  createBucketErr : Store → list byte → option Error;
  (** The commit at the end of [db.Update] fails with this error, if any:
      the store before the transaction, and the one to be written. *)
  commitErr : Store → Store → option Error;
  (** [bolt.Open] and [os.Remove] fail with this error, if any. *)
  openErr : gmap string Store → string → option Error;
  removeErr : gmap string Store → string → option Error;
  (** Modelled from the spec: [cluster.QueryProcessor], the sink of a
      query, and the four query handlers of the shard, which read and
      write the store behind the handle they are given. *)
  QueryProcessor : Type;
  executeListSeriesQuery : DB → QuerySpec → QueryProcessor → World → World * Result unit;
  executeDropSeriesQuery : DB → QuerySpec → QueryProcessor → World → World * Result unit;
  executeDeleteFromSeriesQuery : DB → QuerySpec → QueryProcessor → World → World * Result unit;
  executeSeriesQuery : DB → QuerySpec → QueryProcessor → World → World * Result unit
}.

Section Model.
Context `{Collaborators}.

(** Modelled from the spec: [protocol.Point], a timestamp, a sequence
    number and one value per field position. The list of values may be
    shorter than the list of fields; indexing it then panics. *)
Record Point := mkPoint {
  Values : list FieldValue;
  Timestamp : Z;
  SequenceNumber : Z
}.

(** Modelled from the spec: [protocol.Series], a name, an ordered list of
    field names and an ordered list of points. *)
Record Series := mkSeries {
  Points : list Point;
  Name : string;
  Fields : list string
}.

(** *** The store's transaction interface *)

(** [tx.CreateBucketIfNotExists(name)]; the bucket handle it returns is
    the bucket's name. *)
Definition CreateBucketIfNotExists (name : list byte) : Tx (list byte) :=
  fun st =>
    match createBucketErr st name with
    | Some e => (st, Err e)
    | None => (<[name := contents st name]> st, Ok name)
    end.

(** [b.Put(key, value)]: binds, in the bucket, the bytes the two slices
    hold at the call. The source drops the error [Put] returns, so the
    model has none. *)
Definition Put (b key value : list byte) : Tx unit :=
  fun st => (<[b := <[key := value]> (contents st b)]> st, Ok tt).

(** [bolt.Open(path, 0666)]: creates an empty store file when there is
    none. *)
Definition bolt_Open (path : string) (w : World) : World * Result DB :=
  match openErr (files w) path with
  | Some e => (w, Err e)
  | None =>
      ({| files := <[path := store_at w path]> (files w);
          open_dbs := {[path]} ∪ open_dbs w |}, Ok path)
  end.

(** [db.Close()]. *)
Definition db_Close (db : DB) (w : World) : World :=
  set_open (fun o => o ∖ {[db]}) w.

(** [db.Update(fn)]: runs [fn] on a private view of the store; commits
    the view when [fn] returns [nil], and drops it otherwise. *)
Definition db_Update (db : DB) (fn : Tx unit) (w : World) : World * Result unit :=
  let st := store_at w db in
  match fn st with
  | (st', Ok _) =>
      match commitErr st st' with
      | Some e => (w, Err e)
      | None => (set_files <[db := st']> w, Ok tt)
      end
  | (_, Err e) => (w, Err e)
  | (_, Panic msg) => (w, Panic msg)
  end.

(** [os.Remove(path)]. *)
Definition os_Remove (path : string) (w : World) : World * Result unit :=
  match removeErr (files w) path with
  | Some e => (w, Err e)
  | None => (set_files (delete path) w, Ok tt)
  end.

(** *** The shard *)

Record BoltShard := mkBoltShard {
  baseDir : string;
  dbs : gmap string DB;
  closed : bool
}.

Definition NewBoltShard (baseDir : string) : BoltShard :=
  {| baseDir := baseDir; closed := false; dbs := ∅ |}.

Definition set_dbs (f : gmap string DB → gmap string DB) (s : BoltShard) : BoltShard :=
  {| baseDir := baseDir s; dbs := f (dbs s); closed := closed s |}.

Definition DropDatabase (s : BoltShard) (w : World) (database : string)
  : BoltShard * World * Result unit :=
  match dbs s !! database with
  | None => (s, w, Ok tt)
  | Some db =>
      let w := db_Close db w in
      let s := set_dbs (delete database) s in
      let '(w, r) := os_Remove (baseDir s +:+ "/" +:+ database) w in
      (s, w, r)
  end.

(** One turn of the loop of [close]. *)
Definition close_step (entry : string * DB) (sw : BoltShard * World) : BoltShard * World :=
  let '(databaseName, db) := entry in
  let '(s, w) := sw in
  (set_dbs (delete databaseName) s, db_Close db w).

Definition close (s : BoltShard) (w : World) : BoltShard * World :=
  let '(s, w) := foldr close_step (s, w) (map_to_list (dbs s)) in
  ({| baseDir := baseDir s; dbs := dbs s; closed := true |}, w).

Definition IsClosed (s : BoltShard) : bool := closed s.

Definition Query (s : BoltShard) (w : World) (querySpec : QuerySpec)
    (processor : QueryProcessor) : BoltShard * World * Result unit :=
  let databaseName := Database querySpec in
  let opened :=
    match dbs s !! databaseName with
    | Some db => (s, w, Ok db)
    | None =>
        match bolt_Open (baseDir s +:+ "/" +:+ databaseName) w with
        | (w, Ok db) => (set_dbs <[databaseName := db]> s, w, Ok db)
        | (w, Err e) => (s, w, Err e)
        | (w, Panic msg) => (s, w, Panic msg)
        end
    end in
  match opened with
  | (s, w, Ok db) =>
      let '(w, r) :=
        if IsListSeriesQuery querySpec then
          executeListSeriesQuery db querySpec processor w
        else if IsDropSeriesQuery querySpec then
          executeDropSeriesQuery db querySpec processor w
        else if IsDeleteFromSeriesQuery querySpec then
          executeDeleteFromSeriesQuery db querySpec processor w
        else
          executeSeriesQuery db querySpec processor w in
      (s, w, r)
  | (s, w, Err e) => (s, w, Err e)
  | (s, w, Panic msg) => (s, w, Panic msg)
  end.

(** The key prefix of a point: [keyBuffer] after [Reset], [WriteString],
    [WriteByte(0)] and the two [binary.Write] calls. *)
Definition point_prefix (keyBuffer : list byte) (seriesName : string)
    (timestamp sequenceNumber : Z) : list byte :=
  let keyBuffer := Buffer.Reset keyBuffer in
  let keyBuffer := Buffer.WriteString keyBuffer seriesName in
  let keyBuffer := Buffer.WriteByte keyBuffer x00 in
  let keyBuffer := binary.Write keyBuffer timestamp in
  let keyBuffer := binary.Write keyBuffer sequenceNumber in
  keyBuffer.

(** The closure [Write] hands to [db.Update]. *)
Definition write_tx (series : list Series) : Tx unit :=
  range series (fun _ serie =>
    let seriesName := Name serie in
    if decide (seriesName = "") then mret tt else
    b ← CreateBucketIfNotExists (list_byte_of_string "series");
    Put b (list_byte_of_string seriesName) [];;
    b ← CreateBucketIfNotExists (list_byte_of_string "data");
    let keyBuffer := Buffer.NewBuffer in
    range (Points serie) (fun _ point =>
      let timestamp := itou (Timestamp point) in
      let keyBuffer := point_prefix keyBuffer seriesName timestamp (SequenceNumber point) in
      range (Fields serie) (fun fieldIndex field =>
        value ← index (Values point) fieldIndex;
        if GetIsNull value then mret tt else
        valueBuffer ← lift (Marshal value);
        fieldBucket ← CreateBucketIfNotExists (list_byte_of_string "fields");
        let fieldBucketKey := list_byte_of_string (seriesName +:+ String "000" "" +:+ field) in
        Put fieldBucket fieldBucketKey [];;
        let dataBucketKey := Buffer.Bytes keyBuffer ++ list_byte_of_string field in
        Put b dataBucketKey valueBuffer))).

Definition Write (s : BoltShard) (w : World) (database : string)
    (series : list Series) : BoltShard * World * Result unit :=
  if closed s then (s, w, Err "shard closed") else
  match dbs s !! database with
  | Some db =>
      let '(w, r) := db_Update db (write_tx series) w in (s, w, r)
  | None =>
      match bolt_Open (baseDir s +:+ "/" +:+ database) w with
      | (w, Ok db) =>
          let s := set_dbs <[database := db]> s in
          let '(w, r) := db_Update db (write_tx series) w in (s, w, r)
      | (w, Err e) => (s, w, Err e)
      | (w, Panic msg) => (s, w, Panic msg)
      end
  end.

End Model.

(** ** The write path, in the words of the specification

    The key formats and the list of mutations the specification gives for a
    batch; the theorems below compare them with what [Write] does. *)

(** A fixed-width big-endian integer of [n] bytes. *)
Fixpoint big_endian (n : nat) (v : Z) : list byte :=
  match n with
  | O => []
  | S n' => big_endian n' (v / 256) ++ [byte_of_Z (v mod 256)]
  end.

Definition series_bucket : list byte := list_byte_of_string "series".
Definition fields_bucket : list byte := list_byte_of_string "fields".
Definition data_bucket : list byte := list_byte_of_string "data".

Definition series_key (seriesName : string) : list byte :=
  list_byte_of_string seriesName.

Definition fields_key (seriesName field : string) : list byte :=
  list_byte_of_string seriesName ++ [x00] ++ list_byte_of_string field.

Definition data_key (seriesName : string) (timestamp sequenceNumber : Z)
    (field : string) : list byte :=
  list_byte_of_string seriesName ++ [x00] ++ big_endian 8 timestamp
    ++ big_endian 8 sequenceNumber ++ list_byte_of_string field.

(** A name is free of the separator byte. *)
Definition null_free (name : string) : Prop := x00 ∉ list_byte_of_string name.

Inductive Mutation :=
| EnsureBucket (name : list byte)
| PutEntry (bucket key value : list byte).

Definition apply_mutation (st : Store) (m : Mutation) : Store :=
  match m with
  | EnsureBucket name => <[name := contents st name]> st
  | PutEntry b key value => <[b := <[key := value]> (contents st b)]> st
  end.

Definition apply_mutations (st : Store) (ms : list Mutation) : Store :=
  foldl apply_mutation st ms.

Section Specification.
Context `{Collaborators}.

Definition encode (v : FieldValue) : list byte :=
  match Marshal v with
  | Ok bs => bs
  | _ => []
  end.

(** Field position [i] of point [p] holds a value that is not null. *)
Definition non_null_at (p : Point) (i : nat) : Prop :=
  ∃ v, Values p !! i = Some v ∧ GetIsNull v = false.

Definition value_mutations (seriesName : string) (p : Point) (i : nat)
    (field : string) : list Mutation :=
  match Values p !! i with
  | Some v =>
      if GetIsNull v then []
      else [ EnsureBucket fields_bucket;
             PutEntry fields_bucket (fields_key seriesName field) [];
             PutEntry data_bucket
               (data_key seriesName (itou (Timestamp p)) (SequenceNumber p) field)
               (encode v) ]
  | None => []
  end.

Definition point_mutations (seriesName : string) (fields : list string)
    (p : Point) : list Mutation :=
  concat (imap (value_mutations seriesName p) fields).

Definition series_mutations (serie : Series) : list Mutation :=
  if decide (Name serie = "") then []
  else [ EnsureBucket series_bucket;
         PutEntry series_bucket (series_key (Name serie)) [];
         EnsureBucket data_bucket ]
       ++ concat (point_mutations (Name serie) (Fields serie) <$> Points serie).

Definition batch_mutations (series : list Series) : list Mutation :=
  concat (series_mutations <$> series).



(** The layout of a [data] key: the name, one zero byte, the timestamp
    and the sequence number as unsigned 64-bit numbers on eight bytes
    each, most significant byte first, and the field name. *)
Definition key_layout (key : list byte) (seriesName : string)
    (timestamp sequenceNumber : Z) (field : string) : Prop :=
  ∃ T S : list byte,
    length T = 8 ∧ be_value T = (timestamp mod 2 ^ 64)%Z ∧
    length S = 8 ∧ be_value S = (sequenceNumber mod 2 ^ 64)%Z ∧
    key = list_byte_of_string seriesName ++ [x00] ++ T ++ S
            ++ list_byte_of_string field.

(** Modelled from the spec: [itou] turns an [int64] timestamp into a
    [uint64] in such a way that the order of the encoded keys is the
    order of the timestamps. *)
Definition itou_order_preserving : Prop :=
  ∀ t1 t2 : Z, (- 2 ^ 63 ≤ t1)%Z → (t1 < t2)%Z → (t2 < 2 ^ 63)%Z →
    (0 ≤ itou t1)%Z ∧ (itou t1 < itou t2)%Z ∧ (itou t2 < 2 ^ 64)%Z.

(** Every cached handle of the shard is the one [Write] opens for that
    database name. *)
Definition cache_wf (s : BoltShard) : Prop :=
  ∀ database db, dbs s !! database = Some db → db = baseDir s +:+ "/" +:+ database.
End Specification.

(** ** Sequences of calls on one shard *)

Section Operations.
Context `{Collaborators}.

(** A call of one of the shard's methods. *)
Inductive Op :=
| OpWrite (database : string) (series : list Series)
| OpQuery (querySpec : QuerySpec) (processor : QueryProcessor)
| OpDropDatabase (database : string)
| OpClose.

(** The shard and the world after a call; what the call returns is
    dropped. *)
Definition step (sw : BoltShard * World) (op : Op) : BoltShard * World :=
  let '(s, w) := sw in
  match op with
  | OpWrite database series => (Write s w database series).1
  | OpQuery querySpec processor => (Query s w querySpec processor).1
  | OpDropDatabase database => (DropDatabase s w database).1
  | OpClose => close s w
  end.

Definition run (ops : list Op) (s : BoltShard) (w : World) : BoltShard * World :=
  foldl step (s, w) ops.

(** The query handlers neither open nor close store handles. *)
Definition handlers_keep_handles : Prop :=
  ∀ (db : DB) querySpec processor w,
    open_dbs (executeListSeriesQuery db querySpec processor w).1 = open_dbs w ∧
    open_dbs (executeDropSeriesQuery db querySpec processor w).1 = open_dbs w ∧
    open_dbs (executeDeleteFromSeriesQuery db querySpec processor w).1 = open_dbs w ∧
    open_dbs (executeSeriesQuery db querySpec processor w).1 = open_dbs w.

(** The handles that are open are the handles in the cache. *)
Definition handles_tracked (s : BoltShard) (w : World) : Prop :=
  ∀ path, path ∈ open_dbs w ↔ ∃ database, dbs s !! database = Some path.
End Operations.

(** ** Collaborators for the examples

    Values are numbers, nulls, or a value the serializer rejects; the
    timestamp conversion flips the sign bit; the file system refuses to
    remove one path. *)

Inductive ExampleValue := Null | Num (n : Z) | Rejected.

Definition example_collaborators : Collaborators := {|
  FieldValue := ExampleValue;
  GetIsNull v := match v with Null => true | _ => false end;
  Marshal v :=
    match v with
    | Num n => Ok [byte_of_Z n]
    | Null => Ok []
    | Rejected => Err "proto: Marshal called with nil"
    end;
  itou t := ((t + 2 ^ 63) mod 2 ^ 64)%Z;
  createBucketErr _ _ := None;
  commitErr _ _ := None;
  openErr _ _ := None;
  removeErr _ path :=
    if decide (path = "/var/db/pinned") then Some "remove: operation not permitted" else None;
  QueryProcessor := unit;
  executeListSeriesQuery _ _ _ w := (w, Ok tt);
  executeDropSeriesQuery _ _ _ w := (w, Ok tt);
  executeDeleteFromSeriesQuery _ _ _ w := (w, Ok tt);
  executeSeriesQuery _ _ _ w := (w, Ok tt)
|}.

Definition empty_world : World := {| files := ∅; open_dbs := ∅ |}.

Section ExampleData.
#[local] Existing Instance example_collaborators.

Definition example_shard : BoltShard := NewBoltShard "/var/db".

(** Two points; the field [idle] is null on both. *)
Definition cpu_point_1 : Point :=
  {| Values := [Num 7; Null]; Timestamp := 1; SequenceNumber := 1 |}.

Definition cpu_point_2 : Point :=
  {| Values := [Null; Null]; Timestamp := 2; SequenceNumber := 1 |}.

Definition cpu_series : Series :=
  {| Name := "cpu"; Fields := ["load"; "idle"];
     Points := [cpu_point_1; cpu_point_2] |}.

(** A value the serializer rejects. *)
Definition mem_series : Series :=
  {| Name := "mem"; Fields := ["free"];
     Points := [ {| Values := [Rejected]; Timestamp := 3; SequenceNumber := 1 |} ] |}.

(** No name, and a point that has no value for its field. *)
Definition anonymous_series : Series :=
  {| Name := ""; Fields := ["x"];
     Points := [ {| Values := []; Timestamp := 0; SequenceNumber := 0 |} ] |}.


Definition net_series : Series :=
  {| Name := "net"; Fields := ["rx"];
     Points := [ {| Values := [Null]; Timestamp := 5; SequenceNumber := 1 |} ] |}.


Definition list_series_query : QuerySpec :=
  {| Database := "metrics"; IsListSeriesQuery := true;
     IsDropSeriesQuery := false; IsDeleteFromSeriesQuery := false |}.


Definition example_processor : QueryProcessor := tt.

Definition example_ops : list Op :=
  [ OpWrite "metrics" [cpu_series]; OpQuery list_series_query example_processor;
    OpDropDatabase "metrics"; OpWrite "logs" [net_series] ].
End ExampleData.

(** * Bytes and the key codec *)

Section Codec.
Local Open Scope Z_scope.

Lemma Z_of_byte_range b : 0 ≤ Z_of_byte b < 256.
Proof.
  unfold Z_of_byte. pose proof (Byte.to_N_bounded b). lia.
Qed.

Lemma Z_of_byte_of_Z v : Z_of_byte (byte_of_Z v) = v mod 256.
Proof.
  unfold Z_of_byte, byte_of_Z.
  assert (Hr : 0 ≤ v mod 256 < 256) by (apply Z.mod_pos_bound; lia).
  destruct (Byte.of_N (Z.to_N (v mod 256))) as [b|] eqn:Hb; simpl.
  - apply Byte.to_of_N in Hb. rewrite Hb. lia.
  - apply Byte.of_N_None_iff in Hb. lia.
Qed.

Lemma Z_of_byte_inj a b : Z_of_byte a = Z_of_byte b → a = b.
Proof.
  unfold Z_of_byte. intros Hab. apply N2Z.inj in Hab.
  assert (Hs : Some a = Some b) by (rewrite <- !Byte.of_to_N; congruence).
  congruence.
Qed.

Lemma byte_of_Z_mod v : byte_of_Z (v mod 256) = byte_of_Z v.
Proof. unfold byte_of_Z. by rewrite Z.mod_mod. Qed.

Lemma PutUint64_big_endian v : binary.PutUint64 v = big_endian 8 v.
Proof.
  unfold binary.PutUint64. cbn [big_endian app].
  rewrite !byte_of_Z_mod, !Z.shiftr_div_pow2 by lia.
  rewrite !Z.div_div by lia. reflexivity.
Qed.

Lemma length_big_endian n v : length (big_endian n v) = n.
Proof.
  revert v. induction n as [|n IH]; intros v; simpl; [done|].
  rewrite length_app, IH. simpl. lia.
Qed.

Lemma be_value_snoc bs b : be_value (bs ++ [b]) = be_value bs * 256 + Z_of_byte b.
Proof. unfold be_value. by rewrite foldl_app. Qed.

Lemma be_value_big_endian n v : be_value (big_endian n v) = v mod 256 ^ Z.of_nat n.
Proof.
  revert v. induction n as [|n IH]; intros v.
  - simpl. by rewrite Z.mod_1_r.
  - cbn [big_endian]. rewrite be_value_snoc, IH, Z_of_byte_of_Z.
    rewrite Nat2Z.inj_succ, Z.pow_succ_r by lia.
    assert (Hp : 0 < 256 ^ Z.of_nat n) by (apply Z.pow_pos_nonneg; lia).
    rewrite (Z.rem_mul_r v 256 (256 ^ Z.of_nat n)), Z.mod_mod by lia. lia.
Qed.

Lemma big_endian_mod n v : big_endian n (v mod 256 ^ Z.of_nat n) = big_endian n v.
Proof.
  revert v. induction n as [|n IH]; intros v; [done|].
  cbn [big_endian]. rewrite Nat2Z.inj_succ, Z.pow_succ_r by lia.
  assert (Hp : 0 < 256 ^ Z.of_nat n) by (apply Z.pow_pos_nonneg; lia).
  rewrite (Z.rem_mul_r v 256 (256 ^ Z.of_nat n)) by lia.
  replace ((v mod 256 + 256 * ((v / 256) mod 256 ^ Z.of_nat n)) / 256)
    with ((v / 256) mod 256 ^ Z.of_nat n).
  2:{ rewrite (Z.mul_comm 256), Z.div_add by lia.
      rewrite (Z.div_small (v mod 256) 256) by (apply Z.mod_pos_bound; lia). lia. }
  rewrite IH. f_equal. f_equal.
  rewrite (Z.mul_comm 256), Z.mod_add by lia. by rewrite Z.mod_mod.
Qed.

Lemma binary_Write_big_endian buf v : binary.Write buf v = buf ++ big_endian 8 v.
Proof.
  unfold binary.Write. rewrite PutUint64_big_endian.
  change (2 ^ 64) with (256 ^ Z.of_nat 8). by rewrite big_endian_mod.
Qed.

Lemma list_byte_of_string_app a b :
  list_byte_of_string (a +:+ b) = list_byte_of_string a ++ list_byte_of_string b.
Proof.
  unfold list_byte_of_string.
  induction a as [|c a IH]; simpl; [done|]. by rewrite IH.
Qed.

Lemma list_byte_of_string_inj a b :
  list_byte_of_string a = list_byte_of_string b → a = b.
Proof.
  intros Hab. rewrite <- (string_of_list_byte_of_string a),
    <- (string_of_list_byte_of_string b). by rewrite Hab.
Qed.

(** The prefix [Write] builds in [keyBuffer] and the keys it puts are the
    keys of the specification. *)
Lemma point_prefix_eq buf seriesName timestamp sequenceNumber field :
  Buffer.Bytes (point_prefix buf seriesName timestamp sequenceNumber)
    ++ list_byte_of_string field
  = data_key seriesName timestamp sequenceNumber field.
Proof.
  unfold point_prefix, data_key, Buffer.Bytes, Buffer.Reset,
    Buffer.WriteString, Buffer.WriteByte.
  rewrite !binary_Write_big_endian. simpl. by rewrite <- !app_assoc.
Qed.

Lemma fields_key_eq seriesName field :
  list_byte_of_string (seriesName +:+ String "000" "" +:+ field)
  = fields_key seriesName field.
Proof. unfold fields_key. by rewrite !list_byte_of_string_app. Qed.

(** *** Order of keys *)

Lemma bytes_compare_app p a b :
  bytes_compare (p ++ a) (p ++ b) = bytes_compare a b.
Proof.
  induction p as [|x p IH]; simpl; [done|]. by rewrite Z.compare_refl.
Qed.

Lemma bytes_compare_big_endian n u1 u2 r1 r2 :
  0 ≤ u1 < 256 ^ Z.of_nat n → 0 ≤ u2 < 256 ^ Z.of_nat n →
  bytes_compare (big_endian n u1 ++ r1) (big_endian n u2 ++ r2)
  = match u1 ?= u2 with
    | Eq => bytes_compare r1 r2
    | c => c
    end.
Proof.
  revert u1 u2 r1 r2. induction n as [|n IH]; intros u1 u2 r1 r2 H1 H2.
  - simpl in *. assert (u1 = 0) by lia. assert (u2 = 0) by lia. subst.
    by simpl.
  - cbn [big_endian]. rewrite <- !app_assoc.
    rewrite Nat2Z.inj_succ, Z.pow_succ_r in H1, H2 by lia.
    assert (Hp : 0 < 256 ^ Z.of_nat n) by (apply Z.pow_pos_nonneg; lia).
    rewrite IH.
    2,3: split; [apply Z.div_pos; lia | apply Z.div_lt_upper_bound; lia].
    pose proof (Z.div_mod u1 256 ltac:(lia)) as E1.
    pose proof (Z.div_mod u2 256 ltac:(lia)) as E2.
    pose proof (Z.mod_pos_bound u1 256 ltac:(lia)) as B1.
    pose proof (Z.mod_pos_bound u2 256 ltac:(lia)) as B2.
    destruct (Z.compare_spec (u1 / 256) (u2 / 256)) as [Hq|Hq|Hq].
    + simpl. rewrite !Z_of_byte_of_Z, !Z.mod_mod by lia.
      destruct (Z.compare_spec (u1 mod 256) (u2 mod 256)) as [Hm|Hm|Hm].
      * replace u2 with u1 by lia. by rewrite Z.compare_refl.
      * assert (Hlt : u1 < u2) by lia.
        apply Z.compare_lt_iff in Hlt. by rewrite Hlt.
      * assert (Hgt : u2 < u1) by lia.
        apply Z.compare_gt_iff in Hgt. by rewrite Hgt.
    + assert (Hlt : u1 < u2) by lia.
      apply Z.compare_lt_iff in Hlt. by rewrite Hlt.
    + assert (Hgt : u2 < u1) by lia.
      apply Z.compare_gt_iff in Hgt. by rewrite Hgt.
Qed.
End Codec.

(** * The transaction of [Write] and the mutations of the specification *)

Section Transaction.
Context `{Collaborators}.

Lemma bind_Ok {A B} (m : Tx A) (f : A → Tx B) st st' b :
  (m ≫= f) st = (st', Ok b) ↔ ∃ a st1, m st = (st1, Ok a) ∧ f a st1 = (st', Ok b).
Proof.
  unfold mbind, Tx_bind. split.
  - destruct (m st) as [st1 [a|e|msg]]; [eauto | done | done].
  - intros (a & st1 & -> & Hf). done.
Qed.

Lemma apply_mutations_app st ms1 ms2 :
  apply_mutations st (ms1 ++ ms2) = apply_mutations (apply_mutations st ms1) ms2.
Proof. apply foldl_app. Qed.

(** A loop that returns [nil] applied the mutations of its turns, in
    order. *)
Lemma range_from_Ok {A} (l : list A) (body : nat → A → Tx unit)
    (muts : nat → A → list Mutation) :
  (∀ j x st st', body j x st = (st', Ok tt) → st' = apply_mutations st (muts j x)) →
  ∀ i st st', range_from i l body st = (st', Ok tt) →
    st' = apply_mutations st (concat (imap (fun j => muts (i + j)) l)).
Proof.
  intros Hbody. induction l as [|x l IH]; intros i st st' Hrun.
  - simpl in Hrun. by inversion Hrun.
  - cbn [range_from] in Hrun. apply bind_Ok in Hrun as ([] & st1 & Hx & Hl).
    apply Hbody in Hx. apply IH in Hl. cbn [imap concat].
    rewrite apply_mutations_app, Nat.add_0_r, <- Hx, Hl.
    do 2 f_equal. apply imap_ext. intros j y _. simpl. f_equal. lia.
Qed.

Lemma range_Ok {A} (l : list A) (body : nat → A → Tx unit)
    (muts : A → list Mutation) st st' :
  (∀ j x st st', body j x st = (st', Ok tt) → st' = apply_mutations st (muts x)) →
  range l body st = (st', Ok tt) →
  st' = apply_mutations st (concat (muts <$> l)).
Proof.
  intros Hbody Hrun.
  apply (range_from_Ok l body (fun _ => muts) Hbody) in Hrun.
  by rewrite (imap_const muts) in Hrun.
Qed.

Lemma CreateBucketIfNotExists_Ok name st st' b :
  CreateBucketIfNotExists name st = (st', Ok b) →
  b = name ∧ st' = apply_mutation st (EnsureBucket name).
Proof.
  unfold CreateBucketIfNotExists.
  destruct (createBucketErr st name); intros Hrun; by inversion Hrun.
Qed.

Lemma value_tx_Ok seriesName b p i field prefix st st' :
  b = data_bucket →
  prefix ++ list_byte_of_string field
    = data_key seriesName (itou (Timestamp p)) (SequenceNumber p) field →
  (value ← index (Values p) i;
   if GetIsNull value then mret tt else
   valueBuffer ← lift (Marshal value);
   fieldBucket ← CreateBucketIfNotExists (list_byte_of_string "fields");
   Put fieldBucket
     (list_byte_of_string (seriesName +:+ String "000" "" +:+ field)) [];;
   Put b (prefix ++ list_byte_of_string field) valueBuffer) st = (st', Ok tt) →
  st' = apply_mutations st (value_mutations seriesName p i field).
Proof.
  intros -> Hkey Hrun. unfold value_mutations.
  apply bind_Ok in Hrun as (v & st1 & Hv & Hrun).
  unfold index, lift in Hv.
  destruct (Values p !! i) as [v'|]; [|done].
  inversion Hv; subst v' st1; clear Hv.
  destruct (GetIsNull v); [by inversion Hrun|].
  apply bind_Ok in Hrun as (bs & st1 & Hm & Hrun).
  unfold lift in Hm. inversion Hm as [[Hst Hbs]]; subst st1.
  apply bind_Ok in Hrun as (fb & st2 & Hc & Hrun).
  apply CreateBucketIfNotExists_Ok in Hc as [-> ->].
  apply bind_Ok in Hrun as ([] & st3 & Hp1 & Hp2).
  unfold Put in Hp1, Hp2. inversion Hp1; subst st3. inversion Hp2; subst st'.
  rewrite fields_key_eq, Hkey. unfold encode. by rewrite Hbs.
Qed.

Lemma write_tx_Ok series st st' :
  write_tx series st = (st', Ok tt) →
  st' = apply_mutations st (batch_mutations series).
Proof.
  unfold write_tx, batch_mutations. apply range_Ok.
  clear st st'. intros _ serie st st' Hrun. unfold series_mutations.
  destruct (decide (Name serie = "")); [by inversion Hrun|].
  apply bind_Ok in Hrun as (b & st1 & Hc & Hrun).
  apply CreateBucketIfNotExists_Ok in Hc as [-> ->].
  apply bind_Ok in Hrun as ([] & st2 & Hp & Hrun).
  unfold Put in Hp. inversion Hp; subst st2; clear Hp.
  apply bind_Ok in Hrun as (b & st3 & Hc & Hrun).
  apply CreateBucketIfNotExists_Ok in Hc as [-> ->].
  rewrite apply_mutations_app. cbn [apply_mutations foldl].
  revert Hrun. apply range_Ok.
  clear st st'. intros _ p st st' Hrun. unfold point_mutations.
  apply (range_from_Ok _ _ (value_mutations (Name serie) p)) in Hrun; [done|].
  clear st st' Hrun. intros i field st st'.
  apply value_tx_Ok; [done|]. apply point_prefix_eq.
Qed.
End Transaction.

(** * Stores under a list of mutations *)

Section Stores.
Implicit Types (st : Store) (ms : list Mutation) (b key : list byte).

Lemma contents_apply_mutation st m b :
  contents (apply_mutation st m) b
  = match m with
    | EnsureBucket _ => contents st b
    | PutEntry b' key value =>
        if decide (b' = b) then <[key := value]> (contents st b) else contents st b
    end.
Proof.
  unfold contents at 1. destruct m as [name|b' key value]; simpl.
  - destruct (decide (name = b)) as [->|Hne].
    + by rewrite lookup_insert_eq.
    + by rewrite lookup_insert_ne.
  - destruct (decide (b' = b)) as [->|Hne].
    + by rewrite lookup_insert_eq.
    + by rewrite lookup_insert_ne.
Qed.

Lemma apply_mutations_cons st m ms :
  apply_mutations st (m :: ms) = apply_mutations (apply_mutation st m) ms.
Proof. done. Qed.

(** Mutations never remove an entry. *)
Lemma apply_mutation_mono st m b key :
  is_Some (contents st b !! key) → is_Some (contents (apply_mutation st m) b !! key).
Proof.
  intros Hin. rewrite contents_apply_mutation.
  destruct m as [|b' key' value]; [done|].
  destruct (decide (b' = b)); [|done].
  destruct (decide (key' = key)) as [->|].
  - rewrite lookup_insert_eq. eauto.
  - by rewrite lookup_insert_ne.
Qed.

Lemma apply_mutations_mono st ms b key :
  is_Some (contents st b !! key) → is_Some (contents (apply_mutations st ms) b !! key).
Proof.
  revert st. induction ms as [|m ms IH]; intros st Hin; [done|].
  rewrite apply_mutations_cons. apply IH. by apply apply_mutation_mono.
Qed.



(** *** Applying a list of mutations twice *)

Local Abbreviation merge_stores := (union_with (fun x y : Bucket => Some (x ∪ y))).

Lemma merge_stores_assoc (d1 d2 st : Store) :
  merge_stores d1 (merge_stores d2 st) = merge_stores (merge_stores d1 d2) st.
Proof.
  apply map_eq. intros b. rewrite !lookup_union_with.
  destruct (d1 !! b), (d2 !! b), (st !! b); simpl; try done.
  by rewrite (assoc_L (∪)).
Qed.

Lemma merge_stores_idemp (d : Store) : merge_stores d d = d.
Proof.
  apply union_with_idemp. intros b x _. by rewrite (idemp_L (∪)).
Qed.

Lemma apply_mutation_merge m :
  ∃ d : Store, ∀ st, apply_mutation st m = merge_stores d st.
Proof.
  destruct m as [name|b key value].
  - exists {[name := ∅]}. intros st. apply map_eq. intros b.
    rewrite lookup_union_with. simpl. unfold contents.
    destruct (decide (name = b)) as [->|Hne].
    + rewrite lookup_insert_eq, lookup_singleton_eq.
      destruct (st !! b); simpl; [|done]. by rewrite (left_id_L ∅ (∪)).
    + rewrite lookup_insert_ne, lookup_singleton_ne by done.
      by destruct (st !! b).
  - exists {[b := {[key := value]}]}. intros st. apply map_eq. intros b'.
    rewrite lookup_union_with. simpl. unfold contents.
    destruct (decide (b = b')) as [->|Hne].
    + rewrite lookup_insert_eq, lookup_singleton_eq.
      destruct (st !! b'); simpl.
      * by rewrite insert_union_singleton_l.
      * by rewrite insert_empty.
    + rewrite lookup_insert_ne, lookup_singleton_ne by done.
      by destruct (st !! b').
Qed.

Lemma apply_mutations_merge ms :
  ∃ d : Store, ∀ st, apply_mutations st ms = merge_stores d st.
Proof.
  induction ms as [|m ms [d Hd]].
  - exists ∅. intros st. simpl. by rewrite (left_id_L ∅ merge_stores).
  - destruct (apply_mutation_merge m) as [dm Hdm].
    exists (merge_stores d dm). intros st.
    by rewrite apply_mutations_cons, Hd, Hdm, merge_stores_assoc.
Qed.

(** Every mutation binds a constant, so a second pass changes nothing. *)
Lemma apply_mutations_twice st ms :
  apply_mutations (apply_mutations st ms) ms = apply_mutations st ms.
Proof.
  destruct (apply_mutations_merge ms) as [d Hd].
  by rewrite !Hd, merge_stores_assoc, merge_stores_idemp.
Qed.
End Stores.

(** * What a batch puts *)

Section Batch.
Context `{Collaborators}.

Lemma elem_of_concat {A} (x : A) (ls : list (list A)) :
  x ∈ concat ls ↔ ∃ l, l ∈ ls ∧ x ∈ l.
Proof.
  induction ls as [|l ls IH]; simpl.
  - split; [by intros ?%elem_of_nil|]. by intros (l & ?%elem_of_nil & _).
  - rewrite elem_of_app, IH. split.
    + intros [Hx|(l' & Hl' & Hx)].
      * exists l. split; [by left|done].
      * exists l'. split; [by right|done].
    + intros (l' & Hl' & Hx). apply elem_of_cons in Hl' as [-> | Hl'].
      * by left.
      * right. by exists l'.
Qed.

(** The mutations of one value: none for a null, otherwise the [fields]
    entry and the [data] entry. *)
Lemma elem_of_value_mutations m seriesName p i field :
  m ∈ value_mutations seriesName p i field ↔
  ∃ v, Values p !! i = Some v ∧ GetIsNull v = false ∧
    (m = EnsureBucket fields_bucket ∨
     m = PutEntry fields_bucket (fields_key seriesName field) [] ∨
     m = PutEntry data_bucket
           (data_key seriesName (itou (Timestamp p)) (SequenceNumber p) field)
           (encode v)).
Proof.
  unfold value_mutations. split.
  - destruct (Values p !! i) as [v|]; [|by intros ?%elem_of_nil].
    destruct (GetIsNull v) eqn:Hnull; [by intros ?%elem_of_nil|].
    intros Hm. exists v. repeat split; [done|].
    repeat (apply elem_of_cons in Hm as [-> | Hm]; [tauto|]).
    by apply elem_of_nil in Hm.
  - intros (v & -> & -> & Hm).
    destruct Hm as [-> | [-> | ->]]; repeat constructor.
Qed.

Lemma elem_of_series_mutations m serie :
  m ∈ series_mutations serie ↔
  Name serie ≠ "" ∧
  (m = EnsureBucket series_bucket ∨
   m = PutEntry series_bucket (series_key (Name serie)) [] ∨
   m = EnsureBucket data_bucket ∨
   ∃ p i field, p ∈ Points serie ∧ Fields serie !! i = Some field ∧
     m ∈ value_mutations (Name serie) p i field).
Proof.
  unfold series_mutations. destruct (decide (Name serie = "")) as [He|Hne].
  - split; [by intros ?%elem_of_nil|]. by intros [? _].
  - rewrite elem_of_app, elem_of_concat. split.
    + intros [Hm|(l & Hl & Hm)]; (split; [done|]).
      * repeat (apply elem_of_cons in Hm as [-> | Hm]; [tauto|]).
        by apply elem_of_nil in Hm.
      * apply list_elem_of_fmap in Hl as (p & -> & Hp).
        unfold point_mutations in Hm.
        apply elem_of_concat in Hm as (l & Hl & Hm).
        apply elem_of_lookup_imap in Hl as (i & field & -> & Hfield).
        right; right; right. by exists p, i, field.
    + intros [_ [-> | [-> | [-> | (p & i & field & Hp & Hfield & Hm)]]]].
      1-3: left; repeat constructor.
      right. exists (point_mutations (Name serie) (Fields serie) p). split.
      * apply list_elem_of_fmap. by exists p.
      * unfold point_mutations. apply elem_of_concat.
        exists (value_mutations (Name serie) p i field). split; [|done].
        apply elem_of_lookup_imap. by exists i, field.
Qed.

Lemma elem_of_batch_mutations m series :
  m ∈ batch_mutations series ↔ ∃ serie, serie ∈ series ∧ m ∈ series_mutations serie.
Proof.
  unfold batch_mutations. rewrite elem_of_concat. split.
  - intros (l & Hl & Hm). apply list_elem_of_fmap in Hl as (serie & -> & Hs).
    by exists serie.
  - intros (serie & Hs & Hm). exists (series_mutations serie). split; [|done].
    apply list_elem_of_fmap. by exists serie.
Qed.

(** The only entries a batch puts in the [data] bucket are those of its
    non-null values; each comes with its [series] and [fields] entry. *)
Lemma batch_puts_data series key value :
  PutEntry data_bucket key value ∈ batch_mutations series →
  ∃ serie p i field,
    serie ∈ series ∧ Name serie ≠ "" ∧ p ∈ Points serie ∧
    Fields serie !! i = Some field ∧ non_null_at p i ∧
    key = data_key (Name serie) (itou (Timestamp p)) (SequenceNumber p) field ∧
    PutEntry series_bucket (series_key (Name serie)) [] ∈ batch_mutations series ∧
    PutEntry fields_bucket (fields_key (Name serie) field) [] ∈ batch_mutations series.
Proof.
  intros Hm. apply elem_of_batch_mutations in Hm as (serie & Hs & Hm).
  pose proof Hm as Hm'.
  apply elem_of_series_mutations in Hm' as [Hne [?|[?|[?|Hv]]]]; try done.
  destruct Hv as (p & i & field & Hp & Hfield & Hv). pose proof Hv as Hv'.
  apply elem_of_value_mutations in Hv' as (v & Hval & Hnull & [?|[?|Heq]]);
    try done.
  inversion Heq; subst key value.
  exists serie, p, i, field. repeat split; try done.
  - by exists v.
  - apply elem_of_batch_mutations. exists serie. split; [done|].
    apply elem_of_series_mutations. split; [done|]. tauto.
  - apply elem_of_batch_mutations. exists serie. split; [done|].
    apply elem_of_series_mutations. split; [done|].
    right; right; right. exists p, i, field. repeat split; try done.
    apply elem_of_value_mutations. exists v. tauto.
Qed.





End Batch.

(** * The effect of one [Write] on the shard and on the stores *)

Section WriteEffect.
Context `{Collaborators}.
Implicit Types (db path database : string) (w : World) (st : Store).

Lemma store_at_set_files w db st path :
  store_at (set_files <[db := st]> w) path
  = if decide (db = path) then st else store_at w path.
Proof.
  unfold store_at, set_files. simpl. destruct (decide (db = path)) as [->|Hne].
  - by rewrite lookup_insert_eq.
  - by rewrite lookup_insert_ne.
Qed.

Lemma bolt_Open_Ok path w w1 db :
  bolt_Open path w = (w1, Ok db) →
  db = path ∧ openErr (files w) path = None ∧
  files w1 = <[path := store_at w path]> (files w) ∧
  open_dbs w1 = {[path]} ∪ open_dbs w.
Proof.
  unfold bolt_Open. destruct (openErr (files w) path); intros Hopen; [done|].
  by inversion Hopen.
Qed.

Lemma bolt_Open_Err path w w1 e :
  bolt_Open path w = (w1, Err e) → w1 = w ∧ openErr (files w) path = Some e.
Proof.
  unfold bolt_Open. destruct (openErr (files w) path); intros Hopen; [|done].
  by inversion Hopen.
Qed.

Lemma bolt_Open_Panic path w w1 msg : bolt_Open path w = (w1, Panic msg) → False.
Proof. unfold bolt_Open. by destruct (openErr (files w) path). Qed.

Lemma bolt_Open_store_at path w w1 db path' :
  bolt_Open path w = (w1, Ok db) → store_at w1 path' = store_at w path'.
Proof.
  intros (_ & _ & Hfiles & _)%bolt_Open_Ok. unfold store_at at 1. rewrite Hfiles.
  destruct (decide (path = path')) as [->|Hne].
  - by rewrite lookup_insert_eq.
  - by rewrite lookup_insert_ne.
Qed.

(** [db.Update] commits the whole transaction or nothing. *)
Lemma db_Update_effect db fn w w' r :
  db_Update db fn w = (w', r) →
  (r = Ok tt ∧ ∃ st', fn (store_at w db) = (st', Ok tt) ∧ w' = set_files <[db := st']> w)
  ∨ (r ≠ Ok tt ∧ w' = w).
Proof.
  unfold db_Update. destruct (fn (store_at w db)) as [st' [[]|e|msg]].
  - destruct (commitErr (store_at w db) st'); intros Hup; inversion Hup; subst.
    + by right.
    + left. split; [done|]. by exists st'.
  - intros Hup; inversion Hup; subst. by right.
  - intros Hup; inversion Hup; subst. by right.
Qed.


Lemma Write_update_effect db series w w' r :
  db_Update db (write_tx series) w = (w', r) →
  (∀ path, path ≠ db → store_at w' path = store_at w path) ∧
  (r = Ok tt →
     files w' !! db = Some (apply_mutations (store_at w db) (batch_mutations series))) ∧
  (r ≠ Ok tt → w' = w).
Proof.
  intros [(-> & st' & Htx & ->)|[Hr ->]]%db_Update_effect.
  - apply write_tx_Ok in Htx as ->. split; [|split; [|done]].
    + intros path Hne. rewrite store_at_set_files. by rewrite decide_False.
    + intros _. simpl. by rewrite lookup_insert_eq.
  - done.
Qed.

Lemma Write_effect s w database series s' w' r :
  Write s w database series = (s', w', r) →
  let db := default (baseDir s +:+ "/" +:+ database) (dbs s !! database) in
  baseDir s' = baseDir s ∧ closed s' = closed s ∧
  (dbs s' = dbs s ∨ (dbs s !! database = None ∧ dbs s' = <[database := db]> (dbs s))) ∧
  (∀ path, path ≠ db → store_at w' path = store_at w path) ∧
  (r = Ok tt →
     closed s = false ∧ dbs s' !! database = Some db ∧
     files w' !! db = Some (apply_mutations (store_at w db) (batch_mutations series))) ∧
  (r ≠ Ok tt → ∀ path, store_at w' path = store_at w path).
Proof.
  unfold Write. intros Hw.
  destruct (closed s) eqn:Hclosed.
  { inversion Hw; subst. simpl. repeat split; try done. by left. }
  destruct (dbs s !! database) as [db|] eqn:Hdb; simpl.
  - destruct (db_Update db (write_tx series) w) as [w1 r1] eqn:Hup.
    inversion Hw; subst. apply Write_update_effect in Hup as (Hother & Hok & Herr).
    repeat split; try done; [by left|by apply Hok|].
    intros Hr path. by rewrite (Herr Hr).
  - destruct (bolt_Open (baseDir s +:+ "/" +:+ database) w) as [w1 [db|e|msg]] eqn:Hopen.
    + pose proof (bolt_Open_Ok _ _ _ _ Hopen) as (-> & _).
      destruct (db_Update _ (write_tx series) w1) as [w2 r2] eqn:Hup.
      inversion Hw; subst. apply Write_update_effect in Hup as (Hother & Hok & Herr).
      repeat split; try done.
      * by right.
      * intros path Hne. rewrite Hother by done. by eapply bolt_Open_store_at.
      * simpl. by rewrite lookup_insert_eq.
      * rewrite Hok by done. f_equal. f_equal. by eapply bolt_Open_store_at.
      * intros Hr path. rewrite (Herr Hr). by eapply bolt_Open_store_at.
    + apply bolt_Open_Err in Hopen as [-> _]. inversion Hw; subst.
      repeat split; try done. by left.
    + by apply bolt_Open_Panic in Hopen.
Qed.

End WriteEffect.

(** * Loops of the transaction *)

Section Loops.
Context `{Collaborators}.
Implicit Types (db path database : string) (w : World) (st : Store).

Lemma bind_assoc_at {A B C} (m : Tx A) (f : A → Tx B) (g : B → Tx C) st :
  ((m ≫= f) ≫= g) st = (m ≫= fun a => f a ≫= g) st.
Proof.
  unfold mbind, Tx_bind. by destruct (m st) as [st1 [a|e|msg]].
Qed.

Lemma bind_ext_at {A B} (m : Tx A) (f g : A → Tx B) st :
  (∀ a st1, f a st1 = g a st1) → (m ≫= f) st = (m ≫= g) st.
Proof.
  intros Hfg. unfold mbind, Tx_bind. by destruct (m st) as [st1 [a|e|msg]].
Qed.

(** A loop over [l1 ++ l2] is the loop over [l1] followed by the loop
    over [l2]. *)
Lemma range_from_app {A} (l1 l2 : list A) (body : nat → A → Tx unit) i st :
  range_from i (l1 ++ l2) body st
  = (range_from i l1 body ;; range_from (i + length l1) l2 body) st.
Proof.
  revert i st. induction l1 as [|x l1 IH]; intros i st.
  - simpl. by rewrite Nat.add_0_r.
  - cbn [app range_from length]. rewrite bind_assoc_at.
    apply bind_ext_at. intros [] st1. rewrite IH.
    by replace (S i + length l1) with (i + S (length l1)) by lia.
Qed.

(** A body that does not look at the index runs the same from any
    index. *)
Lemma range_from_shift {A} (l : list A) (g : A → Tx unit) i j st :
  range_from i l (fun _ => g) st = range_from j l (fun _ => g) st.
Proof.
  revert i j st. induction l as [|x l IH]; intros i j st; [done|].
  cbn [range_from]. apply bind_ext_at. intros [] st1. apply IH.
Qed.




End Loops.

(** * The key format and the key order *)

Section Keys.
Context `{Collaborators}.
Implicit Types (db path database : string) (w : World) (st : Store).
Local Open Scope Z_scope.


Lemma be_value_inj (l1 l2 : list byte) :
  length l1 = length l2 → be_value l1 = be_value l2 → l1 = l2.
Proof.
  revert l2. induction l1 as [|b1 l1 IH] using rev_ind; intros l2 Hlen Hval.
  - destruct l2; [done|]. simpl in Hlen. lia.
  - destruct l2 as [|b2 l2 _] using rev_ind.
    { rewrite length_app in Hlen. simpl in Hlen. lia. }
    rewrite !length_app in Hlen. simpl in Hlen.
    rewrite !be_value_snoc in Hval.
    pose proof (Z_of_byte_range b1). pose proof (Z_of_byte_range b2).
    assert (Hb : Z_of_byte b1 = Z_of_byte b2) by lia.
    apply Z_of_byte_inj in Hb as ->. f_equal. apply IH; lia.
Qed.

(** The layout fixes the key. *)
Lemma key_layout_unique key1 key2 seriesName timestamp sequenceNumber field :
  key_layout key1 seriesName timestamp sequenceNumber field →
  key_layout key2 seriesName timestamp sequenceNumber field →
  key1 = key2.
Proof.
  intros (T1 & S1 & HT1 & HvT1 & HS1 & HvS1 & ->)
         (T2 & S2 & HT2 & HvT2 & HS2 & HvS2 & ->).
  rewrite (be_value_inj T1 T2), (be_value_inj S1 S2) by congruence. done.
Qed.


(** C4. For one series name, the keys [Write] builds sort by timestamp,
    then by sequence number, then by field name: a smaller timestamp
    sorts first whatever the sequence numbers and field names are; with
    equal timestamps a smaller sequence number sorts first; with both
    equal the keys compare as the field names do. *)
Theorem data_key_order buf1 buf2 seriesName t1 t2 q1 q2 f1 f2 :
  itou_order_preserving →
  - 2 ^ 63 ≤ t1 < 2 ^ 63 → - 2 ^ 63 ≤ t2 < 2 ^ 63 →
  0 ≤ q1 < 2 ^ 64 → 0 ≤ q2 < 2 ^ 64 →
  let key1 := Buffer.Bytes (point_prefix buf1 seriesName (itou t1) q1)
                ++ list_byte_of_string f1 in
  let key2 := Buffer.Bytes (point_prefix buf2 seriesName (itou t2) q2)
                ++ list_byte_of_string f2 in
  (t1 < t2 → bytes_lt key1 key2) ∧
  (t1 = t2 → q1 < q2 → bytes_lt key1 key2) ∧
  (t1 = t2 → q1 = q2 →
     bytes_compare key1 key2
     = bytes_compare (list_byte_of_string f1) (list_byte_of_string f2)).
Proof.
  intros Hitou Ht1 Ht2 Hq1 Hq2 key1 key2. subst key1 key2.
  rewrite !point_prefix_eq. unfold data_key, bytes_lt.
  rewrite !(app_assoc (list_byte_of_string seriesName) [x00]).
  rewrite !bytes_compare_app.
  change (2 ^ 64) with (256 ^ Z.of_nat 8) in *.
  split; [|split].
  - intros Hlt. destruct (Hitou t1 t2) as (Hlo & Hmid & Hhi); try lia.
    rewrite bytes_compare_big_endian by (change (256 ^ Z.of_nat 8) with (2 ^ 64); lia).
    apply Z.compare_lt_iff in Hmid. by rewrite Hmid.
  - intros -> Hlt. rewrite bytes_compare_app.
    rewrite bytes_compare_big_endian by done.
    apply Z.compare_lt_iff in Hlt. by rewrite Hlt.
  - intros -> ->. by rewrite !bytes_compare_app.
Qed.
End Keys.

(** * The write path *)

Section WritePath.
Context `{Collaborators}.
Implicit Types (db path database : string) (w : World) (st : Store).




(** C5. [Write] is idempotent: when the same batch is written twice to
    the same database and both calls return [nil], the second call
    leaves the shard and every store, bucket by bucket, as the first
    call left them. *)
Theorem Write_idempotent s w database series s1 w1 s2 w2 :
  Write s w database series = (s1, w1, Ok tt) →
  Write s1 w1 database series = (s2, w2, Ok tt) →
  s2 = s1 ∧ w2 = w1 ∧
  ∀ path b, contents (store_at w2 path) b = contents (store_at w1 path) b.
Proof.
  intros Hw1 Hw2.
  apply Write_effect in Hw1 as (_ & Hc1 & _ & _ & Hok1 & _).
  destruct (Hok1 eq_refl) as (Hclosed & Hdb & Hfiles).
  set (db := default (baseDir s +:+ "/" +:+ database) (dbs s !! database)) in *.
  revert Hw2. unfold Write. rewrite Hc1, Hclosed, Hdb.
  destruct (db_Update db (write_tx series) w1) as [w2' r2] eqn:Hup.
  intros Hw2. inversion Hw2; subst.
  apply db_Update_effect in Hup as [(_ & st' & Htx & ->)|[? _]]; [|done].
  apply write_tx_Ok in Htx.
  assert (Hst : store_at w1 db
                = apply_mutations (store_at w db) (batch_mutations series)).
  { unfold store_at at 1. by rewrite Hfiles. }
  rewrite Hst, apply_mutations_twice in Htx. subst st'.
  assert (Hw : set_files
                 <[db := apply_mutations (store_at w db) (batch_mutations series)]> w1
               = w1).
  { destruct w1 as [fs op]. unfold set_files. simpl in *. f_equal.
    by apply insert_id. }
  rewrite Hw. done.
Qed.

Lemma db_Update_ext db (f g : Tx unit) w :
  (∀ st, f st = g st) → db_Update db f w = db_Update db g w.
Proof. intros Hfg. unfold db_Update. by rewrite Hfg. Qed.

Lemma write_tx_skip series1 serie series2 st :
  Name serie = "" →
  write_tx (series1 ++ serie :: series2) st = write_tx (series1 ++ series2) st.
Proof.
  intros Hname. unfold write_tx, range. rewrite !range_from_app.
  apply bind_ext_at. intros [] st1. cbn [range_from].
  destruct (decide (Name serie = "")); [|done].
  unfold mret, Tx_ret, mbind, Tx_bind. apply range_from_shift.
Qed.

(** C9. A batch entry whose series name is empty is skipped: [Write]
    returns the same result and leaves the same shard and stores as for
    the batch without that entry. *)
Theorem Write_skips_empty_name s w database series1 serie series2 :
  Name serie = "" →
  Write s w database (series1 ++ serie :: series2)
  = Write s w database (series1 ++ series2).
Proof.
  intros Hname. unfold Write.
  destruct (closed s); [done|].
  destruct (dbs s !! database) as [db|].
  - by rewrite (db_Update_ext db _ (write_tx (series1 ++ series2)))
      by (intros st; by apply write_tx_skip).
  - destruct (bolt_Open _ w) as [w1 [db|e|msg]]; try done.
    by rewrite (db_Update_ext db _ (write_tx (series1 ++ series2)))
      by (intros st; by apply write_tx_skip).
Qed.

Lemma apply_mutations_untouched st ms b :
  (∀ key value, PutEntry b key value ∉ ms) →
  contents (apply_mutations st ms) b = contents st b.
Proof.
  revert st. induction ms as [|m ms IH]; intros st Hno; [done|].
  rewrite apply_mutations_cons, IH.
  - rewrite contents_apply_mutation. destruct m as [|b' key value]; [done|].
    destruct (decide (b' = b)) as [->|]; [|done].
    destruct (Hno key value). by left.
  - intros key value Hin. apply (Hno key value). by right.
Qed.

End WritePath.

(** * The life cycle of the shard *)

Section Lifecycle.
Context `{Collaborators}.
Implicit Types (db path database : string) (w : World) (st : Store)
  (l : list (string * string)).

Lemma close_loop_shard l s w :
  baseDir (foldr close_step (s, w) l).1 = baseDir s ∧
  closed (foldr close_step (s, w) l).1 = closed s ∧
  files (foldr close_step (s, w) l).2 = files w.
Proof.
  induction l as [|[name db] l IH]; [done|].
  simpl. destruct (foldr close_step (s, w) l) as [s1 w1]. by simpl in *.
Qed.

Lemma close_loop_dbs l s w name :
  dbs (foldr close_step (s, w) l).1 !! name
  = if decide (name ∈ l.*1) then None else dbs s !! name.
Proof.
  induction l as [|[name' db] l IH].
  - case_decide as Hin; [by apply elem_of_nil in Hin|done].
  - cbn [foldr fmap list_fmap]. destruct (foldr close_step (s, w) l) as [s1 w1].
    cbn [close_step fst set_dbs dbs] in *.
    destruct (decide (name' = name)) as [->|Hne].
    + rewrite lookup_delete_eq.
      destruct (decide (name ∈ name :: l.*1)) as [|Hnin]; [done|].
      destruct Hnin. by left.
    + rewrite lookup_delete_ne, IH by done.
      destruct (decide (name ∈ l.*1)) as [Hin|Hnin],
        (decide (name ∈ name' :: l.*1)) as [Hin'|Hnin']; try done.
      * destruct Hnin'. by right.
      * apply elem_of_cons in Hin' as [?|?]; [congruence|done].
Qed.

Lemma close_loop_open l s w path :
  path ∈ open_dbs (foldr close_step (s, w) l).2 ↔ path ∈ open_dbs w ∧ path ∉ l.*2.
Proof.
  induction l as [|[name db] l IH]; simpl.
  - split; [|by intros [? _]]. intros Hin. split; [done|]. by intros ?%elem_of_nil.
  - destruct (foldr close_step (s, w) l) as [s1 w1]. simpl in *.
    rewrite elem_of_difference, IH, elem_of_singleton, not_elem_of_cons. tauto.
Qed.

(** [close] closes every cached handle, empties the cache and sets the
    flag; it touches no store. *)
Lemma close_effect s w :
  baseDir (close s w).1 = baseDir s ∧ closed (close s w).1 = true ∧
  dbs (close s w).1 = ∅ ∧ files (close s w).2 = files w ∧
  (∀ path, path ∈ open_dbs (close s w).2 ↔
     path ∈ open_dbs w ∧ ∀ name, dbs s !! name ≠ Some path).
Proof.
  unfold close.
  pose proof (close_loop_shard (map_to_list (dbs s)) s w) as (Hdir & _ & Hfiles).
  pose proof (close_loop_dbs (map_to_list (dbs s)) s w) as Hdbs.
  pose proof (close_loop_open (map_to_list (dbs s)) s w) as Hopen.
  destruct (foldr close_step (s, w) (map_to_list (dbs s))) as [s1 w1].
  simpl in *. split; [done|]. split; [done|]. split; [|split; [done|]].
  - apply map_eq. intros name. rewrite Hdbs, lookup_empty.
    destruct (decide (name ∈ (map_to_list (dbs s)).*1)) as [|Hnin]; [done|].
    destruct (dbs s !! name) as [db|] eqn:Hdb; [|done].
    destruct Hnin. apply list_elem_of_fmap. exists (name, db).
    split; [done|]. by apply elem_of_map_to_list.
  - intros path. rewrite Hopen. split; intros [Hin Hno]; (split; [done|]).
    + intros name Hname. apply Hno.
      apply list_elem_of_fmap. exists (name, path). split; [done|].
      by apply elem_of_map_to_list.
    + intros ([name db] & -> & Hin')%list_elem_of_fmap.
      apply elem_of_map_to_list in Hin'. by apply (Hno name).
Qed.

Lemma Write_closed s w database series :
  IsClosed s = true → Write s w database series = (s, w, Err "shard closed").
Proof. unfold IsClosed, Write. by intros ->. Qed.

(** No method of the shard clears the closed flag. *)
Lemma closed_stays s w database series querySpec processor :
  closed (Write s w database series).1.1 = closed s ∧
  closed (Query s w querySpec processor).1.1 = closed s ∧
  closed (DropDatabase s w database).1.1 = closed s.
Proof.
  split; [|split].
  - destruct (Write s w database series) as [[s' w'] r] eqn:Hw.
    by apply Write_effect in Hw as (_ & Hclosed & _).
  - unfold Query, bolt_Open. by repeat case_match; simplify_eq.
  - unfold DropDatabase, os_Remove. by repeat case_match; simplify_eq.
Qed.

(** C6. After [close]: [IsClosed] is true and every handle is evicted;
    [close] can be called again, to no effect. On a shard whose flag is
    set, [Write], on any database and batch, returns the shard-closed
    error and changes neither the shard nor the world; and the flag stays
    set through every later [Write], [Query], [DropDatabase] and
    [close]. *)
Theorem closed_shard s w :
  IsClosed (close s w).1 = true ∧
  dbs (close s w).1 = ∅ ∧
  close (close s w).1 (close s w).2 = close s w ∧
  ∀ s1 w1 database series querySpec processor,
    IsClosed s1 = true →
    Write s1 w1 database series = (s1, w1, Err "shard closed") ∧
    IsClosed (Write s1 w1 database series).1.1 = true ∧
    IsClosed (Query s1 w1 querySpec processor).1.1 = true ∧
    IsClosed (DropDatabase s1 w1 database).1.1 = true ∧
    IsClosed (close s1 w1).1 = true.
Proof.
  pose proof (close_effect s w) as (Hdir & Hclosed & Hdbs & _).
  split; [done|]. split; [done|]. split.
  - destruct (close s w) as [s1 w1] eqn:Hclose. simpl in *.
    unfold close at 1. rewrite Hdbs, map_to_list_empty. simpl.
    destruct s1 as [dir cache flag]. simpl in *. by subst.
  - intros s1 w1 database series querySpec processor Hflag.
    destruct (closed_stays s1 w1 database series querySpec processor)
      as (Hw & Hq & Hd).
    unfold IsClosed in *. rewrite Hw, Hq, Hd.
    repeat split; try done; [by apply Write_closed|].
    by destruct (close_effect s1 w1) as (_ & ? & _).
Qed.

(** C7, as the code has it. [Query] does not look at the closed flag: on
    a closed shard it opens the store of the database it is asked about
    and caches the handle, where [Write] returns the shard-closed
    error. *)
Theorem Query_after_close_opens s w querySpec processor :
  let s1 := (close s w).1 in
  let w1 := (close s w).2 in
  let path := baseDir s +:+ "/" +:+ Database querySpec in
  match openErr (files w) path with
  | Some e => Query s1 w1 querySpec processor = (s1, w1, Err e)
  | None =>
      IsClosed (Query s1 w1 querySpec processor).1.1 = true ∧
      dbs s1 !! Database querySpec = None ∧
      dbs (Query s1 w1 querySpec processor).1.1 !! Database querySpec = Some path
  end.
Proof.
  pose proof (close_effect s w) as (Hdir & Hclosed & Hdbs & Hfiles & _).
  destruct (close s w) as [s1 w1] eqn:Hclose. simpl in *.
  unfold Query, bolt_Open. rewrite Hdbs, lookup_empty, Hdir, Hfiles.
  destruct (openErr (files w) _) as [e|]; [done|].
  repeat case_match; simpl; by rewrite ?lookup_insert_eq.
Qed.

(** C8. [DropDatabase] on a database with no cached handle returns [nil]
    and changes nothing. With a cached handle it closes the handle,
    evicts it, and removes the file [baseDir/database]; if the removal
    fails its error is returned, the file stays, and the handle is
    evicted all the same. *)
Theorem DropDatabase_effect s w database :
  (dbs s !! database = None → DropDatabase s w database = (s, w, Ok tt)) ∧
  (∀ db, dbs s !! database = Some db →
     let path := baseDir s +:+ "/" +:+ database in
     let s' := (DropDatabase s w database).1.1 in
     let w' := (DropDatabase s w database).1.2 in
     dbs s' = delete database (dbs s) ∧
     baseDir s' = baseDir s ∧ closed s' = closed s ∧
     open_dbs w' = open_dbs w ∖ {[db]} ∧
     match removeErr (files w) path with
     | Some e => (DropDatabase s w database).2 = Err e ∧ files w' = files w
     | None => (DropDatabase s w database).2 = Ok tt ∧ files w' = delete path (files w)
     end).
Proof.
  unfold DropDatabase. split.
  - by intros ->.
  - intros db ->. unfold os_Remove. simpl.
    by destruct (removeErr (files w) _).
Qed.
End Lifecycle.

(** * Sequences of writes and the index *)

Section Index.
Context `{Collaborators}.
Implicit Types (db path database dir : string) (w : World) (st : Store).

Lemma string_app_inv_l dir a b : dir +:+ a = dir +:+ b → a = b.
Proof. induction dir as [|c dir IH]; simpl; [done|]. intros [=]. by apply IH. Qed.

Lemma split_at_separator (x : byte) (l1 l2 r1 r2 : list byte) :
  x ∉ l1 → x ∉ l2 → l1 ++ x :: r1 = l2 ++ x :: r2 → l1 = l2 ∧ r1 = r2.
Proof.
  revert l2. induction l1 as [|a l1 IH]; intros [|b l2] H1 H2 Heq; simpl in *.
  - by inversion Heq.
  - inversion Heq; subst. destruct H2. by left.
  - inversion Heq; subst. destruct H1. by left.
  - inversion Heq; subst. apply not_elem_of_cons in H1 as [_ H1].
    apply not_elem_of_cons in H2 as [_ H2].
    destruct (IH l2 H1 H2) as [-> ->]; done.
Qed.


Lemma Write_cache_wf s w database series s' w' r :
  Write s w database series = (s', w', r) → cache_wf s →
  cache_wf s' ∧ baseDir s' = baseDir s.
Proof.
  intros Hw Hwf. apply Write_effect in Hw as (Hdir & _ & Hdbs & _).
  split; [|done]. intros name db. rewrite Hdir.
  destruct Hdbs as [->|[Hnone ->]]; [by apply Hwf|].
  rewrite Hnone. simpl. destruct (decide (database = name)) as [->|Hne].
  - rewrite lookup_insert_eq. by intros [= <-].
  - rewrite lookup_insert_ne by done. by apply Hwf.
Qed.





End Index.

(** * More on the write path *)

Section WriteMore.
Context `{Collaborators}.
Implicit Types (db path database : string) (w : World) (st : Store).

Lemma db_Update_open_dbs db fn w : open_dbs (db_Update db fn w).1 = open_dbs w.
Proof.
  unfold db_Update. destruct (fn (store_at w db)) as [st' [[]|e|msg]]; try done.
  by destruct (commitErr (store_at w db) st').
Qed.

Lemma db_Update_file db fn w path :
  is_Some (files w !! path) → is_Some (files (db_Update db fn w).1 !! path).
Proof.
  unfold db_Update. destruct (fn (store_at w db)) as [st' [[]|e|msg]]; try done.
  destruct (commitErr (store_at w db) st'); [done|]. simpl.
  destruct (decide (db = path)) as [->|Hne].
  - rewrite lookup_insert_eq. eauto.
  - by rewrite lookup_insert_ne.
Qed.

Lemma Write_opens s w database series :
  closed s = false →
  let path := baseDir s +:+ "/" +:+ database in
  (∀ db, dbs s !! database = Some db →
     dbs (Write s w database series).1.1 = dbs s ∧
     open_dbs (Write s w database series).1.2 = open_dbs w) ∧
  (dbs s !! database = None →
     match openErr (files w) path with
     | Some e => Write s w database series = (s, w, Err e)
     | None =>
         dbs (Write s w database series).1.1 = <[database := path]> (dbs s) ∧
         open_dbs (Write s w database series).1.2 = {[path]} ∪ open_dbs w ∧
         is_Some (files (Write s w database series).1.2 !! path)
     end).
Proof.
  intros Hclosed path. unfold Write. rewrite Hclosed. split.
  - intros db ->.
    pose proof (db_Update_open_dbs db (write_tx series) w) as Hopen.
    by destruct (db_Update db (write_tx series) w).
  - intros ->. unfold bolt_Open. fold path.
    destruct (openErr (files w) path) as [e|]; [done|].
    set (w1 := {| files := _; open_dbs := _ |}).
    pose proof (db_Update_open_dbs path (write_tx series) w1) as Hopen.
    pose proof (db_Update_file path (write_tx series) w1 path) as Hfile.
    destruct (db_Update path (write_tx series) w1) as [w2 r]. simpl in *.
    repeat split; try done. apply Hfile. rewrite lookup_insert_eq. eauto.
Qed.

(** X1. [Write] opens a database on first use. With a cached handle it
    opens nothing. Without one it calls [bolt.Open] on [baseDir/database]:
    if that fails, [Write] returns the error and changes nothing; if it
    succeeds, the handle is cached and open and the store file exists
    afterwards, whether the transaction then commits or not. *)
Theorem Write_lazy_open s w database series :
  closed s = false →
  let path := baseDir s +:+ "/" +:+ database in
  (∀ db, dbs s !! database = Some db →
     dbs (Write s w database series).1.1 = dbs s ∧
     open_dbs (Write s w database series).1.2 = open_dbs w) ∧
  (dbs s !! database = None →
     match openErr (files w) path with
     | Some e => Write s w database series = (s, w, Err e)
     | None =>
         dbs (Write s w database series).1.1 = <[database := path]> (dbs s) ∧
         open_dbs (Write s w database series).1.2 = {[path]} ∪ open_dbs w ∧
         is_Some (files (Write s w database series).1.2 !! path)
     end).
Proof. apply Write_opens. Qed.

(** A loop that returns [nil] ran every turn to [nil]. *)
Lemma range_from_Ok_turn {A} (l : list A) (body : nat → A → Tx unit) i st st' :
  range_from i l body st = (st', Ok tt) →
  ∀ k x, l !! k = Some x → ∃ st1 st2, body (i + k) x st1 = (st2, Ok tt).
Proof.
  revert i st. induction l as [|y l IH]; intros i st Hrun k x Hx; [done|].
  cbn [range_from] in Hrun. apply bind_Ok in Hrun as ([] & st1 & Hy & Hl).
  destruct k as [|k]; simpl in Hx.
  - inversion Hx; subst. rewrite Nat.add_0_r. eauto.
  - replace (i + S k) with (S i + k) by lia. by eapply IH.
Qed.

Lemma write_tx_Ok_values series st st' serie p i field :
  write_tx series st = (st', Ok tt) →
  serie ∈ series → Name serie ≠ "" → p ∈ Points serie →
  Fields serie !! i = Some field →
  ∃ v, Values p !! i = Some v ∧ (GetIsNull v = true ∨ ∃ bs, Marshal v = Ok bs).
Proof.
  intros Hrun Hserie Hne Hp Hfield.
  apply list_elem_of_lookup_1 in Hserie as [ks Hks].
  apply list_elem_of_lookup_1 in Hp as [kp Hkp].
  unfold write_tx, range in Hrun.
  destruct (range_from_Ok_turn _ _ _ _ _ Hrun ks serie Hks) as (st1 & st2 & Hbody).
  clear Hrun. rewrite decide_False in Hbody by done.
  apply bind_Ok in Hbody as (b & st3 & _ & Hbody).
  apply bind_Ok in Hbody as ([] & st4 & _ & Hbody).
  apply bind_Ok in Hbody as (b' & st5 & _ & Hbody).
  destruct (range_from_Ok_turn _ _ _ _ _ Hbody kp p Hkp) as (st6 & st7 & Hpoint).
  clear Hbody.
  destruct (range_from_Ok_turn _ _ _ _ _ Hpoint i field Hfield) as (st8 & st9 & Hvalue).
  clear Hpoint. simpl in Hvalue.
  apply bind_Ok in Hvalue as (v & st10 & Hv & Hrest).
  unfold index, lift in Hv. destruct (Values p !! i) as [v'|]; [|done].
  inversion Hv; subst. exists v. split; [done|].
  destruct (GetIsNull v); [by left|]. right.
  apply bind_Ok in Hrest as (bs & st11 & Hm & _).
  unfold lift in Hm. exists bs. by inversion Hm.
Qed.

Lemma Write_Ok_values s w database series s' w' serie p i field :
  Write s w database series = (s', w', Ok tt) →
  serie ∈ series → Name serie ≠ "" → p ∈ Points serie →
  Fields serie !! i = Some field →
  ∃ v, Values p !! i = Some v ∧ (GetIsNull v = true ∨ ∃ bs, Marshal v = Ok bs).
Proof.
  intros Hw. unfold Write in Hw.
  destruct (closed s); [done|].
  assert (Hup : ∃ db w1 w2, db_Update db (write_tx series) w1 = (w2, Ok tt)).
  { destruct (dbs s !! database) as [db|].
    - destruct (db_Update db (write_tx series) w) as [w2 r] eqn:Hup.
      inversion Hw; subst. eauto.
    - destruct (bolt_Open _ w) as [w1 [db|e|msg]]; try done.
      destruct (db_Update db (write_tx series) w1) as [w2 r] eqn:Hup.
      inversion Hw; subst. eauto. }
  destruct Hup as (db & w1 & w2 & Hup).
  apply db_Update_effect in Hup as [(_ & st' & Htx & _)|[? _]]; [|done].
  by eapply write_tx_Ok_values.
Qed.

(** X2. [Write] returns [nil] only for a batch in which every point of a
    named series holds a value at every field position of the series, and
    every such value that is not null can be serialized. *)
Theorem Write_nil_only_if s w database series s' w' :
  Write s w database series = (s', w', Ok tt) →
  ∀ serie p i field,
    serie ∈ series → Name serie ≠ "" → p ∈ Points serie →
    Fields serie !! i = Some field →
    ∃ v, Values p !! i = Some v ∧ (GetIsNull v = true ∨ ∃ bs, Marshal v = Ok bs).
Proof. intros Hw serie p i field. by eapply Write_Ok_values. Qed.


End WriteMore.

Section WriteFrame.
Context `{Collaborators}.
Implicit Types (db path database : string) (w : World) (st : Store)
  (ms : list Mutation) (b key : list byte).

(** The store of the handle [Write] uses, after the call. *)
Lemma Write_store s w database series :
  let db := default (baseDir s +:+ "/" +:+ database) (dbs s !! database) in
  (Write s w database series).2 = Ok tt ∧
    store_at (Write s w database series).1.2 db
    = apply_mutations (store_at w db) (batch_mutations series)
  ∨ (Write s w database series).2 ≠ Ok tt ∧
    ∀ path, store_at (Write s w database series).1.2 path = store_at w path.
Proof.
  intros db. destruct (Write s w database series) as [[s' w'] r] eqn:Hw.
  apply Write_effect in Hw as (_ & _ & _ & _ & Hok & Herr). fold db in Hok.
  simpl. destruct r as [[]|e|msg].
  - left. split; [done|]. destruct (Hok eq_refl) as (_ & _ & Hfiles).
    unfold store_at at 1. by rewrite Hfiles.
  - right. split; [done|]. by apply Herr.
  - right. split; [done|]. by apply Herr.
Qed.

Lemma Write_other_paths s w database series path :
  path ≠ default (baseDir s +:+ "/" +:+ database) (dbs s !! database) →
  store_at (Write s w database series).1.2 path = store_at w path.
Proof.
  intros Hne. destruct (Write s w database series) as [[s' w'] r] eqn:Hw.
  apply Write_effect in Hw as (_ & _ & _ & Hother & _). by apply Hother.
Qed.

(** X4. [Write] never removes an entry: a key that is in a bucket of a
    store before the call is in it after the call, whatever the call
    returns. *)
Theorem Write_keeps_entries s w database series path b key :
  is_Some (contents (store_at w path) b !! key) →
  is_Some (contents (store_at (Write s w database series).1.2 path) b !! key).
Proof.
  intros Hin.
  set (db := default (baseDir s +:+ "/" +:+ database) (dbs s !! database)).
  destruct (decide (path = db)) as [->|Hne].
  - destruct (Write_store s w database series) as [[_ Hst]|[_ Hsame]].
    + fold db in Hst. rewrite Hst. by apply apply_mutations_mono.
    + by rewrite Hsame.
  - by rewrite Write_other_paths.
Qed.

Lemma apply_mutations_other_key st ms b key :
  (∀ value, PutEntry b key value ∉ ms) →
  contents (apply_mutations st ms) b !! key = contents st b !! key.
Proof.
  revert st. induction ms as [|m ms IH]; intros st Hno; [done|].
  rewrite apply_mutations_cons, IH.
  - rewrite contents_apply_mutation. destruct m as [|b' key' value]; [done|].
    destruct (decide (b' = b)) as [->|]; [|done].
    destruct (decide (key' = key)) as [->|Hne].
    + destruct (Hno value). by left.
    + by rewrite lookup_insert_ne.
  - intros value Hin. apply (Hno value). by right.
Qed.

Lemma batch_puts_bucket series b key value :
  PutEntry b key value ∈ batch_mutations series →
  b = series_bucket ∨ b = fields_bucket ∨ b = data_bucket.
Proof.
  intros (serie & _ & Hm)%elem_of_batch_mutations.
  apply elem_of_series_mutations in Hm as [_ [?|[Heq|[?|Hv]]]]; try done.
  - inversion Heq. by left.
  - destruct Hv as (p & i & field & _ & _ & Hv).
    apply elem_of_value_mutations in Hv as (v & _ & _ & [?|[Heq|Heq]]); try done;
      inversion Heq; tauto.
Qed.

(** X5. What [Write] leaves alone. The store of another database of a
    shard whose cache is well formed is unchanged; in the store it writes
    to, every bucket other than [series], [fields] and [data] is
    unchanged, and so is every [data] entry whose key is not the key of a
    non-null value of the batch. *)
Theorem Write_frame s w database series :
  let w' := (Write s w database series).1.2 in
  (cache_wf s → ∀ other, other ≠ database →
     store_at w' (baseDir s +:+ "/" +:+ other) = store_at w (baseDir s +:+ "/" +:+ other)) ∧
  (∀ path b, b ≠ series_bucket → b ≠ fields_bucket → b ≠ data_bucket →
     contents (store_at w' path) b = contents (store_at w path) b) ∧
  (∀ path key,
     (∀ serie p i field, serie ∈ series → Name serie ≠ "" → p ∈ Points serie →
        Fields serie !! i = Some field → non_null_at p i →
        key ≠ data_key (Name serie) (itou (Timestamp p)) (SequenceNumber p) field) →
     contents (store_at w' path) data_bucket !! key
     = contents (store_at w path) data_bucket !! key).
Proof.
  intros w'. subst w'.
  set (db := default (baseDir s +:+ "/" +:+ database) (dbs s !! database)).
  split; [|split].
  - intros Hwf other Hne. apply Write_other_paths. fold db. intros Heq.
    assert (Hdb : db = baseDir s +:+ "/" +:+ database).
    { unfold db. destruct (dbs s !! database) as [db'|] eqn:Hdb; [|done].
      by apply Hwf. }
    rewrite Hdb in Heq. apply string_app_inv_l in Heq. by inversion Heq.
  - intros path b Hs Hf Hd. destruct (decide (path = db)) as [->|Hne].
    + destruct (Write_store s w database series) as [[_ Hst]|[_ Hsame]].
      * fold db in Hst. rewrite Hst. apply apply_mutations_untouched.
        intros key value Hput. apply batch_puts_bucket in Hput. tauto.
      * by rewrite Hsame.
    + by rewrite Write_other_paths.
  - intros path key Hkey. destruct (decide (path = db)) as [->|Hne].
    + destruct (Write_store s w database series) as [[_ Hst]|[_ Hsame]].
      * fold db in Hst. rewrite Hst. apply apply_mutations_other_key.
        intros value Hput. apply batch_puts_data in Hput
          as (serie & p & i & field & Hserie & Hname & Hp & Hfield & Hnn & Heq & _).
        by apply (Hkey serie p i field).
      * by rewrite Hsame.
    + by rewrite Write_other_paths.
Qed.



End WriteFrame.

Section WriteCompose.
Context `{Collaborators}.
Implicit Types (db path database : string) (w : World) (st : Store)
  (ms : list Mutation) (b key : list byte).


Lemma batch_mutations_app series1 series2 :
  batch_mutations (series1 ++ series2)
  = batch_mutations series1 ++ batch_mutations series2.
Proof. unfold batch_mutations. by rewrite fmap_app, concat_app. Qed.

(** X8. Two writes are one write of the two batches. When a [Write] of
    [series1] and then a [Write] of [series2] to the same database both
    return [nil], the store is the one a single [Write] of
    [series1 ++ series2] that returns [nil] leaves. *)
Theorem Write_twice_is_Write_app s w database series1 series2 s1 w1 s2 w2 s3 w3 :
  Write s w database series1 = (s1, w1, Ok tt) →
  Write s1 w1 database series2 = (s2, w2, Ok tt) →
  Write s w database (series1 ++ series2) = (s3, w3, Ok tt) →
  let db := default (baseDir s +:+ "/" +:+ database) (dbs s !! database) in
  s3 = s2 ∧ store_at w3 db = store_at w2 db ∧
  ∀ path, path ≠ db → store_at w3 path = store_at w2 path.
Proof.
  intros Hw1 Hw2 Hw3 db.
  apply Write_effect in Hw1 as (Hdir1 & Hc1 & Hdbs1 & Hother1 & Hok1 & _).
  apply Write_effect in Hw2 as (Hdir2 & Hc2 & Hdbs2 & Hother2 & Hok2 & _).
  apply Write_effect in Hw3 as (Hdir3 & Hc3 & Hdbs3 & Hother3 & Hok3 & _).
  fold db in Hdbs1, Hother1, Hok1, Hdbs3, Hother3, Hok3.
  destruct (Hok1 eq_refl) as (_ & Hdb1 & Hfiles1).
  destruct (Hok2 eq_refl) as (_ & Hdb2 & Hfiles2).
  destruct (Hok3 eq_refl) as (_ & Hdb3 & Hfiles3).
  rewrite Hdb1 in Hdbs2, Hother2, Hfiles2, Hdb2. simpl in *.
  destruct Hdbs2 as [Hdbs2|[? _]]; [|done].
  assert (Hcache : dbs s3 = dbs s2).
  { rewrite Hdbs2.
    destruct Hdbs1 as [Heq1|[Hnone1 Heq1]], Hdbs3 as [Heq3|[Hnone3 Heq3]].
    - congruence.
    - rewrite Heq1, Hnone3 in Hdb1. done.
    - rewrite Heq3, Hnone1 in Hdb3. done.
    - congruence. }
  assert (Hs : s3 = s2).
  { destruct s2 as [dir2 dbs2 c2], s3 as [dir3 dbs3 c3]. simpl in *.
    f_equal; congruence. }
  split; [done|]. split.
  - unfold store_at at 1 2. rewrite Hfiles3, Hfiles2. simpl.
    rewrite batch_mutations_app, apply_mutations_app. do 2 f_equal.
    unfold store_at at 2. by rewrite Hfiles1.
  - intros path Hne. by rewrite Hother3, Hother2, Hother1.
Qed.
End WriteCompose.

Section KeysMore.
Context `{Collaborators}.
Local Open Scope Z_scope.

Lemma big_endian_inj v1 v2 :
  0 ≤ v1 < 2 ^ 64 → 0 ≤ v2 < 2 ^ 64 → big_endian 8 v1 = big_endian 8 v2 → v1 = v2.
Proof.
  intros H1 H2 Heq. apply (f_equal be_value) in Heq.
  rewrite !be_value_big_endian in Heq.
  change (256 ^ Z.of_nat 8) with (2 ^ 64) in Heq.
  by rewrite !Z.mod_small in Heq by lia.
Qed.

(** X9. A [data] key belongs to one value only: two keys [Write] builds
    from series names without a zero byte are equal only if the series
    name, the converted timestamp, the sequence number and the field name
    are all equal. *)
Theorem data_key_inj buf1 buf2 n1 n2 u1 u2 q1 q2 f1 f2 :
  null_free n1 → null_free n2 →
  0 ≤ u1 < 2 ^ 64 → 0 ≤ u2 < 2 ^ 64 → 0 ≤ q1 < 2 ^ 64 → 0 ≤ q2 < 2 ^ 64 →
  Buffer.Bytes (point_prefix buf1 n1 u1 q1) ++ list_byte_of_string f1
  = Buffer.Bytes (point_prefix buf2 n2 u2 q2) ++ list_byte_of_string f2 →
  n1 = n2 ∧ u1 = u2 ∧ q1 = q2 ∧ f1 = f2.
Proof.
  intros Hn1 Hn2 Hu1 Hu2 Hq1 Hq2. rewrite !point_prefix_eq. unfold data_key.
  intros Heq.
  apply (split_at_separator x00 _ _
           (big_endian 8 u1 ++ big_endian 8 q1 ++ list_byte_of_string f1)
           (big_endian 8 u2 ++ big_endian 8 q2 ++ list_byte_of_string f2))
    in Heq as [Hn Hrest]; [|done..].
  apply app_inj_1 in Hrest as [Hu Hrest]; [|by rewrite !length_big_endian].
  apply app_inj_1 in Hrest as [Hq Hf]; [|by rewrite !length_big_endian].
  repeat split.
  - by apply list_byte_of_string_inj.
  - by apply big_endian_inj.
  - by apply big_endian_inj.
  - by apply list_byte_of_string_inj.
Qed.

Lemma Z_of_byte_pos b : b ≠ x00 → 0 < Z_of_byte b.
Proof.
  intros Hne. pose proof (Z_of_byte_range b).
  destruct (decide (Z_of_byte b = 0)) as [Hz|]; [|lia].
  destruct Hne. by apply Z_of_byte_inj.
Qed.

Lemma bytes_compare_separator (l1 l2 r1 r2 : list byte) :
  x00 ∉ l2 → bytes_compare l1 l2 = Lt →
  bytes_compare (l1 ++ x00 :: r1) (l2 ++ x00 :: r2) = Lt.
Proof.
  revert l2. induction l1 as [|a l1 IH]; intros [|b l2] Hfree Hlt;
    cbn [bytes_compare app] in *; try done.
  - apply not_elem_of_cons in Hfree as [Hb _].
    assert (Hpos : Z_of_byte x00 < Z_of_byte b)
      by (apply Z_of_byte_pos; congruence).
    apply Z.compare_lt_iff in Hpos. by rewrite Hpos.
  - apply not_elem_of_cons in Hfree as [_ Hfree].
    destruct (Z_of_byte a ?= Z_of_byte b); [by apply IH|done|done].
Qed.

(** X10. Keys sort by series name first: when a series name sorts before
    another one that has no zero byte, every key [Write] builds for the
    first sorts before every key it builds for the second. *)
Theorem data_key_series_order buf1 buf2 n1 n2 u1 u2 q1 q2 f1 f2 :
  null_free n2 →
  bytes_lt (list_byte_of_string n1) (list_byte_of_string n2) →
  bytes_lt
    (Buffer.Bytes (point_prefix buf1 n1 u1 q1) ++ list_byte_of_string f1)
    (Buffer.Bytes (point_prefix buf2 n2 u2 q2) ++ list_byte_of_string f2).
Proof.
  intros Hfree Hlt. rewrite !point_prefix_eq. unfold data_key, bytes_lt.
  by apply (bytes_compare_separator _ _
              (big_endian 8 u1 ++ big_endian 8 q1 ++ list_byte_of_string f1)
              (big_endian 8 u2 ++ big_endian 8 q2 ++ list_byte_of_string f2)).
Qed.
End KeysMore.

Section LifecycleMore.
Context `{Collaborators}.
Implicit Types (db path database : string) (w : World) (st : Store).

Lemma DropDatabase_evicts s w database :
  dbs (DropDatabase s w database).1.1 !! database = None.
Proof.
  unfold DropDatabase. destruct (dbs s !! database) as [db|] eqn:Hdb; [|done].
  unfold os_Remove. destruct (removeErr _ _); simpl; apply lookup_delete_eq.
Qed.

(** X11. [DropDatabase] can be repeated: a second call for the same
    database, whatever the first returned, returns [nil] and changes
    nothing. *)
Theorem DropDatabase_twice s w database :
  DropDatabase (DropDatabase s w database).1.1 (DropDatabase s w database).1.2 database
  = ((DropDatabase s w database).1.1, (DropDatabase s w database).1.2, Ok tt).
Proof.
  pose proof (DropDatabase_evicts s w database) as Hnone.
  destruct (DropDatabase s w database) as [[s1 w1] r]. simpl in *.
  unfold DropDatabase. by rewrite Hnone.
Qed.


(** X13. [close] closes the cached handles and nothing else: it leaves
    the base directory and every store file as they were, and a handle is
    open afterwards exactly when it was open before and is not in the
    cache. *)
Theorem close_closes_cached s w :
  baseDir (close s w).1 = baseDir s ∧
  files (close s w).2 = files w ∧
  ∀ path, path ∈ open_dbs (close s w).2 ↔
    path ∈ open_dbs w ∧ ∀ database, dbs s !! database ≠ Some path.
Proof. by destruct (close_effect s w) as (? & _ & _ & ? & ?). Qed.
End LifecycleMore.

Section QueryMore.
Context `{Collaborators}.
Implicit Types (db path database : string) (w : World) (st : Store).

Local Ltac pick_handler handler :=
  exists handler; split;
  [ repeat first [by apply list_elem_of_here | apply list_elem_of_further]
  | by destruct (handler _ _ _ _) ].

(** The shard and the world [Query] hands to the handler it picks. *)
Lemma Query_opened s w querySpec processor :
  let database := Database querySpec in
  let path := baseDir s +:+ "/" +:+ database in
  match dbs s !! database with
  | Some db =>
      ∃ handler,
        handler ∈ [executeListSeriesQuery; executeDropSeriesQuery;
                   executeDeleteFromSeriesQuery; executeSeriesQuery] ∧
        Query s w querySpec processor
        = (s, (handler db querySpec processor w).1, (handler db querySpec processor w).2)
  | None =>
      match openErr (files w) path with
      | Some e => Query s w querySpec processor = (s, w, Err e)
      | None =>
          ∃ handler,
            handler ∈ [executeListSeriesQuery; executeDropSeriesQuery;
                       executeDeleteFromSeriesQuery; executeSeriesQuery] ∧
            Query s w querySpec processor
            = (set_dbs <[database := path]> s,
               (handler path querySpec processor (bolt_Open path w).1).1,
               (handler path querySpec processor (bolt_Open path w).1).2)
      end
  end.
Proof.
  intros database path. unfold Query, bolt_Open. fold database path.
  destruct (dbs s !! database) as [db|].
  - destruct (IsListSeriesQuery querySpec);
      [|destruct (IsDropSeriesQuery querySpec);
        [|destruct (IsDeleteFromSeriesQuery querySpec)]].
    + pick_handler executeListSeriesQuery.
    + pick_handler executeDropSeriesQuery.
    + pick_handler executeDeleteFromSeriesQuery.
    + pick_handler executeSeriesQuery.
  - destruct (openErr (files w) path); [done|].
    destruct (IsListSeriesQuery querySpec);
      [|destruct (IsDropSeriesQuery querySpec);
        [|destruct (IsDeleteFromSeriesQuery querySpec)]].
    + pick_handler executeListSeriesQuery.
    + pick_handler executeDropSeriesQuery.
    + pick_handler executeDeleteFromSeriesQuery.
    + pick_handler executeSeriesQuery.
Qed.

(** X14. [Query] opens a database on first use, as [Write] does, but on a
    closed shard as well. Without a cached handle it calls [bolt.Open] on
    [baseDir/database]: if that fails, [Query] returns the error, changes
    nothing and runs no handler; if it succeeds, the handle is cached
    under the database name, and base directory and closed flag are as
    before. With a cached handle the shard is unchanged. *)
Theorem Query_lazy_open s w querySpec processor :
  let database := Database querySpec in
  let path := baseDir s +:+ "/" +:+ database in
  (∀ db, dbs s !! database = Some db → (Query s w querySpec processor).1.1 = s) ∧
  (dbs s !! database = None →
     match openErr (files w) path with
     | Some e => Query s w querySpec processor = (s, w, Err e)
     | None =>
         (Query s w querySpec processor).1.1
         = {| baseDir := baseDir s; dbs := <[database := path]> (dbs s);
              closed := closed s |}
     end).
Proof.
  intros database path. pose proof (Query_opened s w querySpec processor) as Hq.
  cbv zeta in Hq. fold database path in Hq. split.
  - intros db Hdb. rewrite Hdb in Hq. destruct Hq as (handler & _ & ->). done.
  - intros Hdb. rewrite Hdb in Hq.
    destruct (openErr (files w) path); [done|].
    destruct Hq as (handler & _ & ->). done.
Qed.

End QueryMore.

Section Invariants.
Context `{Collaborators}.
Implicit Types (db path database : string) (w : World) (st : Store).

Lemma os_Remove_open_dbs path w : open_dbs (os_Remove path w).1 = open_dbs w.
Proof. unfold os_Remove. by destruct (removeErr (files w) path). Qed.

Lemma Write_tracked s w database series :
  cache_wf s → handles_tracked s w →
  handles_tracked (Write s w database series).1.1 (Write s w database series).1.2.
Proof.
  intros Hwf Htr. destruct (closed s) eqn:Hclosed.
  { unfold Write. by rewrite Hclosed. }
  destruct (Write_opens s w database series Hclosed) as [Hcached Hfresh].
  unfold handles_tracked in *.
  destruct (dbs s !! database) as [db|] eqn:Hdb.
  - destruct (Hcached db eq_refl) as [-> ->]. done.
  - specialize (Hfresh eq_refl).
    destruct (openErr (files w) _) as [e|]; [by rewrite Hfresh|].
    destruct Hfresh as (-> & -> & _). intros path.
    rewrite elem_of_union, elem_of_singleton, (Htr path). split.
    + intros [->|[name Hname]].
      * exists database. by rewrite lookup_insert_eq.
      * exists name. rewrite lookup_insert_ne; [done|]. congruence.
    + intros [name Hname]. destruct (decide (database = name)) as [->|Hne].
      * rewrite lookup_insert_eq in Hname. left. congruence.
      * rewrite lookup_insert_ne in Hname by done. right. by exists name.
Qed.

Lemma Query_tracked s w querySpec processor :
  handlers_keep_handles → cache_wf s → handles_tracked s w →
  cache_wf (Query s w querySpec processor).1.1 ∧
  baseDir (Query s w querySpec processor).1.1 = baseDir s ∧
  handles_tracked (Query s w querySpec processor).1.1 (Query s w querySpec processor).1.2.
Proof.
  intros Hkeep Hwf Htr.
  assert (Hopen : ∀ handler (db : DB) w1,
    handler ∈ [executeListSeriesQuery; executeDropSeriesQuery;
               executeDeleteFromSeriesQuery; executeSeriesQuery] →
    open_dbs (handler db querySpec processor w1).1 = open_dbs w1).
  { intros handler db w1 Hin.
    destruct (Hkeep db querySpec processor w1) as (? & ? & ? & ?).
    repeat (apply elem_of_cons in Hin as [->|Hin]; [done|]).
    by apply elem_of_nil in Hin. }
  pose proof (Query_opened s w querySpec processor) as Hq. cbv zeta in Hq.
  destruct (dbs s !! Database querySpec) as [db|] eqn:Hdb.
  - destruct Hq as (handler & Hin & ->). simpl. split; [done|]. split; [done|].
    intros path. by rewrite (Hopen handler db w Hin).
  - unfold bolt_Open in Hq.
    destruct (openErr (files w) _) as [e|]; [by rewrite Hq|].
    destruct Hq as (handler & Hin & ->). simpl. split; [|split; [done|]].
    + intros name db'. simpl. destruct (decide (name = Database querySpec)) as [->|Hne].
      * rewrite lookup_insert_eq. congruence.
      * rewrite lookup_insert_ne by congruence. apply Hwf.
    + intros path. rewrite (Hopen handler _ _ Hin). simpl.
      rewrite elem_of_union, elem_of_singleton, (Htr path). split.
      * intros [->|[name Hname]].
        -- exists (Database querySpec). by rewrite lookup_insert_eq.
        -- exists name. rewrite lookup_insert_ne; [done|]. congruence.
      * intros [name Hname].
        destruct (decide (name = Database querySpec)) as [->|Hne].
        -- rewrite lookup_insert_eq in Hname. left. congruence.
        -- rewrite lookup_insert_ne in Hname by congruence. right. by exists name.
Qed.

Lemma DropDatabase_tracked s w database :
  cache_wf s → handles_tracked s w →
  cache_wf (DropDatabase s w database).1.1 ∧
  baseDir (DropDatabase s w database).1.1 = baseDir s ∧
  handles_tracked (DropDatabase s w database).1.1 (DropDatabase s w database).1.2.
Proof.
  intros Hwf Htr. destruct (DropDatabase_effect s w database) as [Hnone Hsome].
  destruct (dbs s !! database) as [db|] eqn:Hdb.
  - destruct (Hsome db eq_refl) as (Hdbs & Hdir & _ & Hopen & _).
    split; [|split; [done|]].
    + intros name db'. rewrite Hdbs, Hdir. intros Hlook.
      apply lookup_delete_Some in Hlook as [_ Hlook]. by apply Hwf.
    + intros path. rewrite Hopen, Hdbs, elem_of_difference, elem_of_singleton, (Htr path).
      split.
      * intros [[name Hname] Hne]. exists name.
        apply lookup_delete_Some. split; [|done]. congruence.
      * intros [name [Hne Hname]%lookup_delete_Some]. split; [by exists name|].
        intros ->. apply Hwf in Hname, Hdb. rewrite Hname in Hdb.
        apply string_app_inv_l in Hdb. by inversion Hdb.
  - by rewrite (Hnone eq_refl).
Qed.

Lemma close_tracked s w :
  handles_tracked s w → handles_tracked (close s w).1 (close s w).2.
Proof.
  intros Htr path. destruct (close_effect s w) as (_ & _ & Hdbs & _ & Hopen).
  rewrite Hopen, Hdbs. split.
  - intros [Hin Hno]. apply Htr in Hin as [name Hname]. by destruct (Hno name).
  - intros [name Hname]. by rewrite lookup_empty in Hname.
Qed.

Lemma step_invariant s w op :
  handlers_keep_handles → cache_wf s → handles_tracked s w →
  cache_wf (step (s, w) op).1 ∧ baseDir (step (s, w) op).1 = baseDir s ∧
  handles_tracked (step (s, w) op).1 (step (s, w) op).2.
Proof.
  intros Hkeep Hwf Htr. destruct op as [database series|querySpec processor|database|].
  - simpl. destruct (Write s w database series) as [[s' w'] r] eqn:Hw.
    pose proof (Write_tracked s w database series Hwf Htr) as Htr'.
    rewrite Hw in Htr'. destruct (Write_cache_wf _ _ _ _ _ _ _ Hw Hwf). done.
  - by apply Query_tracked.
  - by apply DropDatabase_tracked.
  - simpl. destruct (close_effect s w) as (Hdir & _ & Hdbs & _).
    split; [|split; [done|by apply close_tracked]].
    intros name db. by rewrite Hdbs, lookup_empty.
Qed.

(** X16. Handles do not leak. On a shard made by [NewBoltShard], in a
    world where no handle is open, after any sequence of [Write], [Query],
    [DropDatabase] and [close] calls: the base directory is the one given,
    every cached handle is the handle of [baseDir/database], and the open
    handles are exactly the cached ones; so after a [close] no handle is
    open. The query handlers are assumed to open and close none. *)
Theorem handles_do_not_leak ops dir w :
  handlers_keep_handles → open_dbs w = ∅ →
  let s' := (run ops (NewBoltShard dir) w).1 in
  let w' := (run ops (NewBoltShard dir) w).2 in
  baseDir s' = dir ∧ cache_wf s' ∧ handles_tracked s' w' ∧
  open_dbs (close s' w').2 = ∅.
Proof.
  intros Hkeep Hnone.
  cut (∀ s w, cache_wf s → handles_tracked s w →
         baseDir (run ops s w).1 = baseDir s ∧ cache_wf (run ops s w).1 ∧
         handles_tracked (run ops s w).1 (run ops s w).2).
  { intros Hrun. destruct (Hrun (NewBoltShard dir) w) as (Hdir & Hwf & Htr).
    - intros name db Hdb. simpl in Hdb. by rewrite lookup_empty in Hdb.
    - intros path. rewrite Hnone. split; [by intros ?%elem_of_empty|].
      intros [name Hname]. simpl in Hname. by rewrite lookup_empty in Hname.
    - simpl. split; [done|]. split; [done|]. split; [done|].
      apply set_eq. intros path. split; [|by intros ?%elem_of_empty].
      intros Hin. apply (close_tracked _ _ Htr) in Hin as [name Hname].
      destruct (close_effect (run ops (NewBoltShard dir) w).1
                  (run ops (NewBoltShard dir) w).2) as (_ & _ & Hdbs & _).
      by rewrite Hdbs, lookup_empty in Hname. }
  unfold run. induction ops as [|op ops IH] using rev_ind; intros s w0 Hwf Htr.
  - done.
  - rewrite foldl_app. cbn [foldl].
    destruct (IH s w0 Hwf Htr) as (Hdir & Hwf' & Htr').
    destruct (foldl step (s, w0) ops) as [s1 w1]. cbn [fst snd] in *.
    destruct (step_invariant s1 w1 op Hkeep Hwf' Htr') as (Hwf2 & Hdir2 & Htr2).
    split; [by rewrite Hdir2|]. by split.
Qed.
End Invariants.

(** * The theorems at work on the examples *)

Section Examples.
#[local] Existing Instance example_collaborators.

Lemma call_result {A B C} (x : A * B * C) (c : C) : x.2 = c → x = (x.1.1, x.1.2, c).
Proof. destruct x as [[a b] c']. simpl. by intros ->. Qed.


Example separator_byte : list_byte_of_string (String "000" "") = [x00].
Proof. reflexivity. Qed.

Lemma example_cache_wf : cache_wf example_shard.
Proof. intros database db Hdb. simpl in Hdb. by rewrite lookup_empty in Hdb. Qed.

Lemma example_itou_order_preserving : itou_order_preserving.
Proof.
  intros t1 t2 Hlo Hlt Hhi. simpl.
  rewrite !Z.mod_small by lia. lia.
Qed.


Lemma example_null_free name :
  bool_decide (x00 ∉ list_byte_of_string name) = true → null_free name.
Proof. intros Hdec. by apply bool_decide_eq_true_1 in Hdec. Qed.




Lemma data_key_order_witness :
  bytes_lt
    (Buffer.Bytes (point_prefix [] "cpu" (itou (-5)) 9) ++ list_byte_of_string "load")
    (Buffer.Bytes (point_prefix [] "cpu" (itou 3) 0) ++ list_byte_of_string "idle") ∧
  bytes_lt
    (Buffer.Bytes (point_prefix [] "cpu" (itou 3) 4) ++ list_byte_of_string "load")
    (Buffer.Bytes (point_prefix [] "cpu" (itou 3) 260) ++ list_byte_of_string "idle").
Proof.
  split.
  - destruct (data_key_order [] [] "cpu" (-5) 3 9 0 "load" "idle"
                example_itou_order_preserving) as (Htimestamp & _); [lia..|].
    apply Htimestamp. lia.
  - destruct (data_key_order [] [] "cpu" 3 3 4 260 "load" "idle"
                example_itou_order_preserving) as (_ & Hsequence & _); [lia..|].
    apply Hsequence; [done|lia].
Defined.

Lemma Write_idempotent_witness :
  let first := Write example_shard empty_world "metrics" [cpu_series] in
  let second := Write first.1.1 first.1.2 "metrics" [cpu_series] in
  second.1.1 = first.1.1 ∧ second.1.2 = first.1.2 ∧
  ∀ path b, contents (store_at second.1.2 path) b = contents (store_at first.1.2 path) b.
Proof.
  intros first second.
  exact (Write_idempotent _ _ _ _ _ _ _ _
           (call_result first (Ok tt) eq_refl)
           (call_result second (Ok tt) eq_refl)).
Defined.

Lemma DropDatabase_effect_witness :
  let opened := Write example_shard empty_world "pinned" [cpu_series] in
  let dropped := DropDatabase opened.1.1 opened.1.2 "pinned" in
  DropDatabase example_shard empty_world "pinned" = (example_shard, empty_world, Ok tt) ∧
  dropped.2 = Err "remove: operation not permitted" ∧
  dbs dropped.1.1 !! "pinned" = None ∧
  ("/var/db/pinned" ∉ open_dbs dropped.1.2) ∧
  files dropped.1.2 = files opened.1.2.
Proof.
  intros opened dropped.
  destruct (DropDatabase_effect example_shard empty_world "pinned") as [Hnone _].
  split; [by apply Hnone|].
  destruct (DropDatabase_effect opened.1.1 opened.1.2 "pinned") as [_ Hsome].
  destruct (Hsome "/var/db/pinned" eq_refl) as (Hdbs & _ & _ & Hopen & Hremove).
  simpl in Hremove. destruct Hremove as [Hr Hfiles].
  split; [exact Hr|]. split; [|split; [|exact Hfiles]].
  - fold dropped in Hdbs. rewrite Hdbs. apply lookup_delete_eq.
  - fold dropped in Hopen. rewrite Hopen.
    intros [_ Hnot]%elem_of_difference. apply Hnot. by apply elem_of_singleton.
Defined.

Lemma Write_skips_empty_name_witness :
  Write example_shard empty_world "metrics" [cpu_series; anonymous_series]
  = Write example_shard empty_world "metrics" [cpu_series].
Proof.
  exact (Write_skips_empty_name example_shard empty_world "metrics"
           [cpu_series] anonymous_series [] eq_refl).
Defined.


Lemma closed_shard_witness :
  let s1 := (close example_shard empty_world).1 in
  let w1 := (close example_shard empty_world).2 in
  let s2 := (Query s1 w1 list_series_query tt).1.1 in
  let w2 := (Query s1 w1 list_series_query tt).1.2 in
  Write s2 w2 "metrics" [cpu_series] = (s2, w2, Err "shard closed").
Proof.
  intros s1 w1 s2 w2.
  destruct (closed_shard example_shard empty_world) as (Hflag & _ & _ & Hlater).
  destruct (Hlater s1 w1 "metrics" [cpu_series] list_series_query tt Hflag)
    as (_ & _ & Hquery & _).
  destruct (Hlater s2 w2 "metrics" [cpu_series] list_series_query tt Hquery)
    as (Hwrite & _).
  exact Hwrite.
Defined.

(** After [close], a list-series query on database [metrics] leaves a
    handle for it in the cache of the closed shard, where a write is
    refused. *)
Example Query_after_close_example :
  let s1 := (close example_shard empty_world).1 in
  let w1 := (close example_shard empty_world).2 in
  IsClosed s1 = true ∧
  (Write s1 w1 "metrics" [cpu_series]).2 = Err "shard closed" ∧
  (Query s1 w1 list_series_query tt).2 = Ok tt ∧
  dbs (Query s1 w1 list_series_query tt).1.1 !! "metrics" = Some "/var/db/metrics".
Proof. repeat split. Qed.


Lemma Write_lazy_open_witness :
  let call := Write example_shard empty_world "metrics" [cpu_series; mem_series] in
  call.2 = Err "proto: Marshal called with nil" ∧
  dbs call.1.1 = <["metrics" := "/var/db/metrics"]> ∅ ∧
  open_dbs call.1.2 = {["/var/db/metrics"]} ∪ ∅ ∧
  is_Some (files call.1.2 !! "/var/db/metrics").
Proof.
  intros call. split; [reflexivity|].
  destruct (Write_lazy_open example_shard empty_world "metrics"
              [cpu_series; mem_series] eq_refl) as [_ Hfresh].
  exact (Hfresh eq_refl).
Defined.

Lemma Write_nil_only_if_witness :
  ∃ v, Values cpu_point_1 !! 0%nat = Some v ∧
       (GetIsNull v = true ∨ ∃ bs, Marshal v = Ok bs).
Proof.
  apply (Write_nil_only_if example_shard empty_world "metrics" [cpu_series] _ _
           (call_result (Write example_shard empty_world "metrics" [cpu_series])
              (Ok tt) eq_refl)
           cpu_series cpu_point_1 0%nat "load").
  - by apply list_elem_of_singleton.
  - done.
  - by left.
  - done.
Defined.


Lemma Write_keeps_entries_witness :
  let first := Write example_shard empty_world "metrics" [cpu_series] in
  let second := Write first.1.1 first.1.2 "metrics" [mem_series] in
  second.2 = Err "proto: Marshal called with nil" ∧
  is_Some (contents (store_at second.1.2 "/var/db/metrics") series_bucket
             !! series_key "cpu").
Proof.
  intros first second. split; [reflexivity|].
  apply (Write_keeps_entries first.1.1 first.1.2 "metrics" [mem_series]).
  by eexists.
Defined.

Lemma Write_frame_witness :
  let w' := (Write example_shard empty_world "metrics" [cpu_series]).1.2 in
  store_at w' "/var/db/logs" = store_at empty_world "/var/db/logs" ∧
  contents (store_at w' "/var/db/metrics") (list_byte_of_string "meta")
  = contents (store_at empty_world "/var/db/metrics") (list_byte_of_string "meta").
Proof.
  intros w'.
  destruct (Write_frame example_shard empty_world "metrics" [cpu_series])
    as (Hother & Hbuckets & _).
  split.
  - by apply (Hother example_cache_wf "logs").
  - by apply Hbuckets.
Defined.



Lemma Write_twice_is_Write_app_witness :
  let first := Write example_shard empty_world "metrics" [cpu_series] in
  let second := Write first.1.1 first.1.2 "metrics" [net_series] in
  let both := Write example_shard empty_world "metrics" [cpu_series; net_series] in
  both.1.1 = second.1.1 ∧
  store_at both.1.2 "/var/db/metrics" = store_at second.1.2 "/var/db/metrics".
Proof.
  intros first second both.
  destruct (Write_twice_is_Write_app example_shard empty_world "metrics"
              [cpu_series] [net_series] _ _ _ _ _ _
              (call_result first (Ok tt) eq_refl)
              (call_result second (Ok tt) eq_refl)
              (call_result both (Ok tt) eq_refl)) as (Hs & Hst & _).
  by split.
Defined.

Lemma data_key_inj_witness :
  "cpu" = "cpu" ∧ 5%Z = 5%Z ∧ 1%Z = 1%Z ∧ "load" = "load".
Proof.
  apply (data_key_inj [] [x01] "cpu" "cpu" 5 5 1 1 "load" "load");
    try lia; try (by apply example_null_free).
  reflexivity.
Defined.

Lemma data_key_series_order_witness :
  bytes_lt
    (Buffer.Bytes (point_prefix [] "cpu" (itou 9) 7) ++ list_byte_of_string "load")
    (Buffer.Bytes (point_prefix [] "disk" (itou 1) 0) ++ list_byte_of_string "a").
Proof.
  apply data_key_series_order; [by apply example_null_free|reflexivity].
Defined.


Lemma Query_lazy_open_witness :
  (Query example_shard empty_world list_series_query example_processor).1.1
  = {| baseDir := "/var/db"; dbs := <["metrics" := "/var/db/metrics"]> ∅;
       closed := false |}.
Proof.
  destruct (Query_lazy_open example_shard empty_world list_series_query
              example_processor)
    as [_ Hfresh].
  exact (Hfresh eq_refl).
Defined.


Lemma example_handlers_keep_handles : handlers_keep_handles.
Proof. by intros db querySpec processor w. Qed.

Lemma handles_do_not_leak_witness :
  let s' := (run example_ops (NewBoltShard "/var/db") empty_world).1 in
  let w' := (run example_ops (NewBoltShard "/var/db") empty_world).2 in
  baseDir s' = "/var/db" ∧ cache_wf s' ∧ handles_tracked s' w' ∧
  open_dbs (close s' w').2 = ∅.
Proof.
  exact (handles_do_not_leak example_ops "/var/db" empty_world
           example_handlers_keep_handles eq_refl).
Defined.
End Examples.
